(** * Aushadhi-OCR front end (src/hackathon/app.js): the capture-to-match pipeline

    A shallow embedding of the React component [App]: its presentation
    state, the helpers [runOcr], [queryBackend], [scoreToPercent], the
    Tesseract [logger], the handlers [handleCapture] and [handleFileChange]
    and the mount effect with its cleanup.  Every [async] function is cut at
    its [await]s; the event loop is a step function over a world holding
    the component state, the suspended activations and a log of the calls
    made to the outside (engine, network, alert, console). *)

From Stdlib Require Import ZArith NArith List Bool String Ascii Lia Sorted.
From Stdlib Require Import Floats.SpecFloat DecimalString.
From stdpp Require Import gmap.
Import ListNotations.

Local Open Scope Z_scope.

(* ===================================================================== *)
(** ** JavaScript strings *)
(* ===================================================================== *)

(** A JavaScript string is a sequence of UTF-16 code units. *)
Definition code_unit := N.
Definition jsstring := list code_unit.

(** String literals of the source, all of them ASCII. *)
Definition lit (s : string) : jsstring :=
  map N_of_ascii (list_ascii_of_string s).

(** WhiteSpace and LineTerminator code points of ECMAScript, the ones
    [String.prototype.trim] strips. *)
Definition is_white_space (c : code_unit) : bool :=
  ((9 <=? c) && (c <=? 13) || (c =? 32) || (c =? 160) || (c =? 5760)
   || (8192 <=? c) && (c <=? 8202) || (c =? 8232) || (c =? 8233)
   || (c =? 8239) || (c =? 8287) || (c =? 12288) || (c =? 65279))%N.

Fixpoint trimStart (s : jsstring) : jsstring :=
  match s with
  | c :: s' => if is_white_space c then trimStart s' else s
  | [] => []
  end.

Definition trimEnd (s : jsstring) : jsstring := rev (trimStart (rev s)).

Definition trim (s : jsstring) : jsstring := trimEnd (trimStart s).

(** Truthiness of a string: only the empty string is falsy. *)
Definition truthy_string (s : jsstring) : bool :=
  match s with [] => false | _ => true end.

(** Empty or whitespace-only text, as the spec words it. *)
Definition blank (s : jsstring) : Prop := Forall (fun c => is_white_space c = true) s.

(* ===================================================================== *)
(** ** JavaScript numbers *)
(* ===================================================================== *)

(** Numbers are IEEE 754 binary64 values; the arithmetic is the Standard
    Library's executable specification with [prec = 53], [emax = 1024]. *)
Definition number := spec_float.

Definition prec : Z := 53.
Definition emax : Z := 1024.

Definition number_of_positive (p : positive) : number := binary_round prec emax false p 0.

Definition num_sub (x y : number) : number := SFsub prec emax x y.
Definition num_mul (x y : number) : number := SFmul prec emax x y.
Definition num_leb (x y : number) : bool := SFleb x y.

Definition is_nan (x : number) : bool :=
  match x with S754_nan => true | _ => false end.

(** The value of a well-formed number (canonical mantissa, exponent in range). *)
Definition well_formed (x : number) : bool := valid_binary prec emax x.

(** The results of [Math.round]: NaN, the infinities, minus zero, or an
    integer (every integral double is determined by its integer value). *)
Inductive integral :=
| INaN
| IInf (negative : bool)
| INegZero
| IInt (z : Z).

(** floor(v * 2^e + 1/2) *)
Definition round_half_up (v e : Z) : Z :=
  if 0 <=? e then v * 2 ^ e else (2 * v + 2 ^ (- e)) / 2 ^ (- e + 1).

(** [Math.round x]: the integer closest to [x], ties towards +infinity; a
    negative [x] that rounds to zero gives minus zero. *)
Definition Math_round (x : number) : integral :=
  match x with
  | S754_nan => INaN
  | S754_infinity s => IInf s
  | S754_zero s => if s then INegZero else IInt 0
  | S754_finite s m e =>
      let r := round_half_up (cond_Zopp s (Zpos m)) e in
      if (r =? 0) && s then INegZero else IInt r
  end.

(** Strict order on the non-NaN results, minus zero below plus zero. *)
Definition integral_ltb (a b : integral) : bool :=
  match a, b with
  | INaN, _ | _, INaN => false
  | IInf true, IInf true => false
  | IInf true, _ => true
  | _, IInf true => false
  | IInf false, _ => false
  | _, IInf false => true
  | INegZero, INegZero => false
  | INegZero, IInt z => 0 <=? z
  | IInt z, INegZero => z <? 0
  | IInt x, IInt y => x <? y
  end.

Definition Math_min (a b : integral) : integral :=
  match a, b with
  | INaN, _ | _, INaN => INaN
  | _, _ => if integral_ltb b a then b else a
  end.

Definition Math_max (a b : integral) : integral :=
  match a, b with
  | INaN, _ | _, INaN => INaN
  | _, _ => if integral_ltb a b then b else a
  end.

(** Decimal digits of a natural number. *)
Definition decimal (n : N) : jsstring := lit (NilZero.string_of_uint (N.to_uint n)).

(** *** Number::toString

    The digits JavaScript prints for a number are the shortest decimal
    that converts back to it; an integer of more than 21 digits is
    printed with an exponent. *)

(** The decimal [c] converts to the number [x]. *)
Definition rounds_to (x : number) (c : Z) : bool :=
  SFeqb (number_of_positive (Z.to_pos c)) x.

(** The decimal with the fewest significant digits that converts to [x],
    the double of the integer [z]: the multiples of [10^j] next to [z] are
    tried for [j] from the number of digits of [z] downwards; of two that
    do, the closer to [z] is taken, the even one on a tie. *)
Fixpoint shortest (x : number) (z : Z) (j : nat) : Z :=
  let u := 10 ^ Z.of_nat j in
  let lo := z / u * u in
  let hi := lo + u in
  match rounds_to x lo, rounds_to x hi with
  | true, true =>
      match 2 * z ?= lo + hi with
      | Lt => lo
      | Gt => hi
      | Eq => if Z.even (lo / u) then lo else hi
      end
  | true, false => lo
  | false, true => hi
  | false, false => match j with O => z | S j' => shortest x z j' end
  end.

(** Drops the zeros at the head of a reversed digit string. *)
Fixpoint strip_zeros (rev_digits : jsstring) : jsstring :=
  match rev_digits with
  | 48%N :: s => strip_zeros s
  | _ => rev_digits
  end.

(** The string of a positive integer: its shortest decimal, written out
    up to 21 digits and as [d.ddde+n] beyond. *)
Definition positive_to_string (z : Z) : jsstring :=
  let c := shortest (number_of_positive (Z.to_pos z)) z (length (decimal (Z.to_N z)) - 1) in
  let ds := decimal (Z.to_N c) in
  let n := length ds in
  if (n <=? 21)%nat then ds
  else
    match rev (strip_zeros (rev ds)) with
    | d :: rest =>
        d :: (match rest with [] => [] | _ => lit "." ++ rest end)
          ++ lit "e+" ++ decimal (N.of_nat (n - 1))
    | [] => ds
    end.

(** Number-to-string conversion, as a template literal and a JSX text
    child do it, on the results of [Math.round]. *)
Definition NumberToString (r : integral) : jsstring :=
  match r with
  | INaN => lit "NaN"
  | IInf false => lit "Infinity"
  | IInf true => lit "-Infinity"
  | INegZero => lit "0"
  | IInt 0 => lit "0"
  | IInt (Zpos p) => positive_to_string (Zpos p)
  | IInt (Zneg p) => lit "-" ++ positive_to_string (Zpos p)
  end.

(** The values a JSON document or an engine message can put in a field. *)
Inductive jsvalue :=
| JUndefined
| JNull
| JBool (b : bool)
| JNumber (x : number)
| JString (s : jsstring).

(** The double nearest to 0.1, i.e. the number the JSON text [0.1] parses to. *)
Definition num_0_1 : number := S754_finite false 7205759403792794 (-56).

(* ===================================================================== *)
(** ** scoreToPercent (app.js 137-142) *)
(* ===================================================================== *)

(** [const p = Math.max(0, Math.min(100, Math.round((1 - score) * 100)))] *)
Definition percent_of_score (score : number) : integral :=
  Math_max (IInt 0)
    (Math_min (IInt 100)
       (Math_round (num_mul (num_sub (number_of_positive 1) score) (number_of_positive 100)))).

Definition scoreToPercent (score : jsvalue) : jsstring :=
  match score with
  | JNumber s => NumberToString (percent_of_score s) ++ lit "%"
  | _ => [8212%N]   (* the em dash *)
  end.

(* ===================================================================== *)
(** ** Data of the component *)
(* ===================================================================== *)

(** One entry of the backend's ranked list. *)
Record MatchResult := { name : jsstring; score : jsvalue }.

(** What [useState] holds (app.js 8-14). *)
Record Presentation := {
  imageSrc : option jsstring;      (* data URL preview, initially null *)
  ocrText : jsstring;              (* extracted text *)
  matches : list MatchResult;      (* backend results *)
  warning : option jsstring;       (* null or a message *)
  loadingOcr : bool;
  ocrProgress : integral;
  isWorkerReady : bool
}.

(** The resolved value of [worker.recognize]: [{ data: { text } }], where
    either level may be missing. *)
Record Page := { text : option jsstring }.
Record RecognizeResult := { data : option Page }.

(** What [res.json()] resolves to when it is not [null]: what the reads
    [data.matches] and [data.warning] of lines 102-103 find in it.  An
    object has the fields it has; a number, a string, a boolean or an
    array has neither, and both reads give [undefined] ([None]). *)
Record CatalogData := {
  data_matches : option (list MatchResult);
  data_warning : option jsstring
}.

(** An engine log message [{ status, progress }]. *)
Record LogMessage := { status : jsvalue; progress : jsvalue }.

(** The handle [createWorker] returns; the component creates one. *)
Variant Worker := TesseractWorker.

(** Where an activation of an [async] function is suspended. *)
Variant suspended :=
| AtLoad            (* initWorker, line 31 *)
| AtLoadLanguage    (* initWorker, line 32 *)
| AtInitialize      (* initWorker, line 33 *)
| AtTerminate       (* cleanup, line 45 *)
| AtFileRead        (* handleFileChange, waiting for reader.onload *)
| AtRecognize       (* runOcr, line 66 *)
| AtFetch           (* queryBackend, line 88 *)
| AtResText         (* queryBackend, line 95 *)
| AtResJson.        (* queryBackend, line 101 *)

(** Calls that leave the component, in program order. *)
Variant call :=
| CreateWorker
| WorkerLoad
| WorkerLoadLanguage (lang : jsstring)
| WorkerInitialize (lang : jsstring)
| Terminate
| Recognize (k : nat) (dataUrl : jsstring)
| Fetch (k : nat) (endpoint : jsstring) (body_text : jsstring)
| ResText (k : nat)
| ResJson (k : nat)
| ReadAsDataURL (k : nat) (file : jsstring)
| Alert (msg : jsstring)
| ConsoleError (msg : jsstring)
| ConsoleLog (msg : jsstring).

(** Faults nobody catches. *)
Variant fault :=
| UnhandledRejection (k : nat).

Variant lifecycle := Rendered | Mounted | Unmounted.

(** The world: component state, the ref to the worker, the suspended
    activations (keyed by activation number; the activation of a capture
    or of an upload is the job), the calls made so far, uncaught faults. *)
Record World := {
  ui : Presentation;
  workerRef : option Worker;
  pending : gmap nat suspended;
  next_id : nat;
  calls : list call;
  uncaught : list fault;
  phase : lifecycle
}.

Definition BACKEND_SEARCH_ENDPOINT : jsstring := lit "/api/search".

Definition initial_ui : Presentation :=
  {| imageSrc := None; ocrText := []; matches := []; warning := None;
     loadingOcr := false; ocrProgress := IInt 0; isWorkerReady := false |}.

Definition initial_world : World :=
  {| ui := initial_ui; workerRef := None; pending := ∅; next_id := 0%nat;
     calls := []; uncaught := []; phase := Rendered |}.

(** The engine state of the spec, read off the component: it has no other
    record of it than [workerRef] and [isWorkerReady]. *)
Variant EngineState := Uninitialized | Initializing | Ready | Terminated.

Definition engineState (w : World) : EngineState :=
  match phase w, workerRef w with
  | Unmounted, Some _ => Terminated
  | _, None => Uninitialized
  | _, Some _ => if isWorkerReady (ui w) then Ready else Initializing
  end.

(* ===================================================================== *)
(** ** A state monad over the world *)
(* ===================================================================== *)

Definition M (A : Type) : Type := World → A * World.

#[global] Instance M_ret : MRet M := λ A a w, (a, w).
#[global] Instance M_bind : MBind M := λ A B f c w, let '(a, w') := c w in f a w'.

Definition exec {A} (c : M A) (w : World) : World := snd (c w).

Definition modify_ui (f : Presentation → Presentation) : M unit := λ w,
  (tt, {| ui := f (ui w); workerRef := workerRef w; pending := pending w;
          next_id := next_id w; calls := calls w; uncaught := uncaught w;
          phase := phase w |}).

Definition setImageSrc (v : option jsstring) : M unit := modify_ui (λ p,
  {| imageSrc := v; ocrText := ocrText p; matches := matches p; warning := warning p;
     loadingOcr := loadingOcr p; ocrProgress := ocrProgress p; isWorkerReady := isWorkerReady p |}).

Definition setOcrText (v : jsstring) : M unit := modify_ui (λ p,
  {| imageSrc := imageSrc p; ocrText := v; matches := matches p; warning := warning p;
     loadingOcr := loadingOcr p; ocrProgress := ocrProgress p; isWorkerReady := isWorkerReady p |}).

Definition setMatches (v : list MatchResult) : M unit := modify_ui (λ p,
  {| imageSrc := imageSrc p; ocrText := ocrText p; matches := v; warning := warning p;
     loadingOcr := loadingOcr p; ocrProgress := ocrProgress p; isWorkerReady := isWorkerReady p |}).

Definition setWarning (v : option jsstring) : M unit := modify_ui (λ p,
  {| imageSrc := imageSrc p; ocrText := ocrText p; matches := matches p; warning := v;
     loadingOcr := loadingOcr p; ocrProgress := ocrProgress p; isWorkerReady := isWorkerReady p |}).

Definition setLoadingOcr (v : bool) : M unit := modify_ui (λ p,
  {| imageSrc := imageSrc p; ocrText := ocrText p; matches := matches p; warning := warning p;
     loadingOcr := v; ocrProgress := ocrProgress p; isWorkerReady := isWorkerReady p |}).

Definition setOcrProgress (v : integral) : M unit := modify_ui (λ p,
  {| imageSrc := imageSrc p; ocrText := ocrText p; matches := matches p; warning := warning p;
     loadingOcr := loadingOcr p; ocrProgress := v; isWorkerReady := isWorkerReady p |}).

Definition setIsWorkerReady (v : bool) : M unit := modify_ui (λ p,
  {| imageSrc := imageSrc p; ocrText := ocrText p; matches := matches p; warning := warning p;
     loadingOcr := loadingOcr p; ocrProgress := ocrProgress p; isWorkerReady := v |}).

(** [workerRef.current] *)
Definition workerRef_current : M (option Worker) := λ w, (workerRef w, w).

Definition set_workerRef_current (v : option Worker) : M unit := λ w,
  (tt, {| ui := ui w; workerRef := v; pending := pending w; next_id := next_id w;
          calls := calls w; uncaught := uncaught w; phase := phase w |}).

(** Record a call to the outside. *)
Definition emit (c : call) : M unit := λ w,
  (tt, {| ui := ui w; workerRef := workerRef w; pending := pending w;
          next_id := next_id w; calls := calls w ++ [c]; uncaught := uncaught w;
          phase := phase w |}).

(** [await]: activation [k] is parked at [s] until the awaited promise settles. *)
Definition await (k : nat) (s : suspended) : M unit := λ w,
  (tt, {| ui := ui w; workerRef := workerRef w; pending := <[k := s]> (pending w);
          next_id := next_id w; calls := calls w; uncaught := uncaught w;
          phase := phase w |}).

(** The awaited promise of [k] has settled: [k] leaves the table. *)
Definition resume (k : nat) : M unit := λ w,
  (tt, {| ui := ui w; workerRef := workerRef w; pending := delete k (pending w);
          next_id := next_id w; calls := calls w; uncaught := uncaught w;
          phase := phase w |}).

(** A fresh activation number for a handler or effect that starts. *)
Definition activate : M nat := λ w,
  (next_id w, {| ui := ui w; workerRef := workerRef w; pending := pending w;
                 next_id := S (next_id w); calls := calls w; uncaught := uncaught w;
                 phase := phase w |}).

Definition raise (f : fault) : M unit := λ w,
  (tt, {| ui := ui w; workerRef := workerRef w; pending := pending w;
          next_id := next_id w; calls := calls w; uncaught := uncaught w ++ [f];
          phase := phase w |}).

Definition set_phase (p : lifecycle) : M unit := λ w,
  (tt, {| ui := ui w; workerRef := workerRef w; pending := pending w;
          next_id := next_id w; calls := calls w; uncaught := uncaught w;
          phase := p |}).

(* ===================================================================== *)
(** ** The functions of the component, cut at their awaits *)
(* ===================================================================== *)

(** How an awaited promise settles. *)
Inductive outcome (A : Type) :=
| Resolved (v : A)
| Rejected.
Arguments Resolved {A} v.
Arguments Rejected {A}.

(** The [logger] passed to [createWorker] (lines 23-28). *)
Definition logger (m : LogMessage) : M unit :=
  match status m, progress m with
  | JString s, JNumber p =>
      if decide (s = lit "recognizing text")
      then setOcrProgress (Math_round (num_mul p (number_of_positive 100)))
      else mret tt
  | _, _ => mret tt
  end.

(** [initWorker] (lines 21-36), one definition per segment between awaits.
    Its promise is dropped by the caller (line 38), so a rejected await is
    an unhandled rejection. *)
Definition initWorker (k : nat) : M unit :=
  emit CreateWorker;;
  set_workerRef_current (Some TesseractWorker);;
  emit WorkerLoad;;
  await k AtLoad.

Definition initWorker_loaded (k : nat) (o : outcome unit) : M unit :=
  match o with
  | Resolved _ => emit (WorkerLoadLanguage (lit "eng"));; await k AtLoadLanguage
  | Rejected => raise (UnhandledRejection k)
  end.

Definition initWorker_language (k : nat) (o : outcome unit) : M unit :=
  match o with
  | Resolved _ => emit (WorkerInitialize (lit "eng"));; await k AtInitialize
  | Rejected => raise (UnhandledRejection k)
  end.

Definition initWorker_initialized (k : nat) (o : outcome unit) : M unit :=
  match o with
  | Resolved _ => setIsWorkerReady true;; emit (ConsoleLog (lit "Tesseract worker ready"))
  | Rejected => raise (UnhandledRejection k)
  end.

(** The cleanup of the effect (lines 40-51): an async function called on
    the spot, whose only await sits in a try with an empty catch. *)
Definition cleanup (k : nat) : M unit :=
  r ← workerRef_current;
  match r with
  | Some _ => emit Terminate;; await k AtTerminate
  | None => mret tt
  end.

Definition cleanup_terminated (k : nat) (o : outcome unit) : M unit :=
  match o with
  | Resolved _ => mret tt
  | Rejected => mret tt   (* catch (e) { // ignore } *)
  end.

(** [runOcr] (lines 55-76) up to its await: [Some ''] when it returns at
    once (line 58), [None] when it is parked on [recognize]. *)
Definition runOcr (k : nat) (dataUrl : jsstring) : M (option jsstring) :=
  r ← workerRef_current;
  match r with
  | None =>
      emit (Alert (lit "OCR engine not ready yet. Please wait a moment."));;
      mret (Some [])
  | Some _ =>
      setLoadingOcr true;;
      setOcrText [];;
      setOcrProgress (IInt 0);;
      emit (Recognize k dataUrl);;
      await k AtRecognize;;
      mret None
  end.

(** [(data && data.text) ? data.text.trim() : ''] *)
Definition recognized_text (r : RecognizeResult) : jsstring :=
  match data r with
  | Some d =>
      match text d with
      | Some t => if truthy_string t then trim t else []
      | None => []
      end
  | None => []
  end.

(** [runOcr] from line 67 on, and its catch block. *)
Definition runOcr_recognized (o : outcome RecognizeResult) : M jsstring :=
  match o with
  | Resolved r =>
      let text := recognized_text r in
      setOcrText text;;
      setLoadingOcr false;;
      mret text
  | Rejected =>
      emit (ConsoleError (lit "OCR error:"));;
      setLoadingOcr false;;
      mret []
  end.

(** The catch block of [queryBackend] (lines 104-107). *)
Definition queryBackend_catch : M unit :=
  emit (ConsoleError (lit "Network error:"));;
  setWarning (Some (lit "Network error when contacting backend.")).

(** [queryBackend] (lines 79-108) up to the await of [fetch]. *)
Definition queryBackend (k : nat) (text : jsstring) : M unit :=
  setMatches [];;
  setWarning None;;
  if negb (truthy_string text) || negb (truthy_string (trim text)) then
    setWarning (Some (lit "No text found by OCR."))
  else
    emit (Fetch k BACKEND_SEARCH_ENDPOINT text);;
    await k AtFetch.

(** After [fetch]: [res.ok] decides between lines 95 and 101. *)
Definition queryBackend_fetched (k : nat) (o : outcome bool) : M unit :=
  match o with
  | Resolved ok =>
      if negb ok then emit (ResText k);; await k AtResText
      else emit (ResJson k);; await k AtResJson
  | Rejected => queryBackend_catch
  end.

(** Lines 96-98. *)
Definition queryBackend_text (o : outcome jsstring) : M unit :=
  match o with
  | Resolved err =>
      emit (ConsoleError (lit "Backend error:" ++ err));;
      setWarning (Some (lit "Server error when searching. Check backend."))
  | Rejected => queryBackend_catch
  end.

(** Lines 102-103.  [Resolved None] is the body [null], the one JSON
    value on which the read of [data.matches] throws, into the catch
    block; on any other body the reads succeed. *)
Definition queryBackend_json (o : outcome (option CatalogData)) : M unit :=
  match o with
  | Resolved (Some d) =>
      setMatches (default [] (data_matches d));;
      match data_warning d with
      | Some w => if truthy_string w then setWarning (Some w) else mret tt
      | None => mret tt
      end
  | Resolved None => queryBackend_catch
  | Rejected => queryBackend_catch
  end.

(** What both handlers end with: [setImageSrc(img); const text = await
    runOcr(img); await queryBackend(text);].  When [runOcr] returns, the
    handler awaiting it resumes in the same turn of the event loop, so the
    tail of [runOcr] and the head of [queryBackend] make one step. *)
Definition start (k : nat) (img : jsstring) : M unit :=
  setImageSrc (Some img);;
  r ← runOcr k img;
  match r with
  | Some text => queryBackend k text
  | None => mret tt
  end.

Definition start_recognized (k : nat) (o : outcome RecognizeResult) : M unit :=
  text ← runOcr_recognized o;
  queryBackend k text.

(** [handleCapture] (lines 125-134); [shot] is what [getScreenshot] returned. *)
Definition handleCapture (k : nat) (shot : option jsstring) : M unit :=
  match shot with
  | Some img =>
      if truthy_string img then start k img
      else emit (Alert (lit "Could not capture image from camera."))
  | None => emit (Alert (lit "Could not capture image from camera."))
  end.

(** [handleFileChange] (lines 111-122); [files] is [e.target.files]. *)
Definition handleFileChange (k : nat) (files : list jsstring) : M unit :=
  match files with
  | file :: _ => emit (ReadAsDataURL k file);; await k AtFileRead
  | [] => mret tt
  end.

(** [reader.onload] (lines 115-120). *)
Definition reader_onload (k : nat) (dataUrl : jsstring) : M unit :=
  start k dataUrl.

(* ===================================================================== *)
(** ** The event loop *)
(* ===================================================================== *)

(** What a settled promise carries. *)
Variant settlement :=
| Done (o : outcome unit)                     (* load, loadLanguage, initialize, terminate *)
| FileRead (dataUrl : jsstring)               (* reader.result *)
| Recognized (o : outcome RecognizeResult)    (* worker.recognize *)
| Fetched (o : outcome bool)                  (* fetch: the response's ok *)
| BodyText (o : outcome jsstring)             (* res.text() *)
| BodyJson (o : outcome (option CatalogData)).  (* res.json(); [None] is null *)

Variant event :=
| Mount                                   (* React runs the effect *)
| Unmount                                 (* React runs its cleanup *)
| Log (m : LogMessage)                    (* the engine calls the logger *)
| ClickCapture (shot : option jsstring)   (* the capture button *)
| FileChange (files : list jsstring)      (* the file input *)
| Settle (k : nat) (s : settlement).      (* the promise [k] awaits settles *)

(** The continuation of activation [k], parked at [at_], on settlement [s];
    [None] when the settlement is not of the awaited kind. *)
Definition continue (k : nat) (at_ : suspended) (s : settlement) : option (M unit) :=
  match at_, s with
  | AtLoad, Done o => Some (initWorker_loaded k o)
  | AtLoadLanguage, Done o => Some (initWorker_language k o)
  | AtInitialize, Done o => Some (initWorker_initialized k o)
  | AtTerminate, Done o => Some (cleanup_terminated k o)
  | AtFileRead, FileRead dataUrl => Some (reader_onload k dataUrl)
  | AtRecognize, Recognized o => Some (start_recognized k o)
  | AtFetch, Fetched o => Some (queryBackend_fetched k o)
  | AtResText, BodyText o => Some (queryBackend_text o)
  | AtResJson, BodyJson o => Some (queryBackend_json o)
  | _, _ => None
  end.

(** One turn of the event loop; [None] when the event cannot happen in
    this world.  The capture button is rendered with
    [disabled={!isWorkerReady}] (line 179); the file input has no such
    attribute (lines 159-165).  Promises go on settling after the unmount,
    and the setters go on writing the state, which nothing renders then. *)
Definition step (w : World) (ev : event) : option World :=
  match ev with
  | Mount =>
      match phase w with
      | Rendered => Some (exec (set_phase Mounted;; k ← activate; initWorker k) w)
      | _ => None
      end
  | Unmount =>
      match phase w with
      | Mounted => Some (exec (set_phase Unmounted;; k ← activate; cleanup k) w)
      | _ => None
      end
  | Log m =>
      match workerRef w with
      | Some _ => Some (exec (logger m) w)
      | None => None
      end
  | ClickCapture shot =>
      match phase w with
      | Unmounted => None
      | _ => if isWorkerReady (ui w)
             then Some (exec (k ← activate; handleCapture k shot) w)
             else None
      end
  | FileChange files =>
      match phase w with
      | Unmounted => None
      | _ => Some (exec (k ← activate; handleFileChange k files) w)
      end
  | Settle k s =>
      match pending w !! k with
      | Some at_ =>
          match continue k at_ s with
          | Some c => Some (exec (resume k;; c) w)
          | None => None
          end
      | None => None
      end
  end.

Fixpoint run (w : World) (evs : list event) : option World :=
  match evs with
  | [] => Some w
  | ev :: evs' =>
      match step w ev with
      | Some w' => run w' evs'
      | None => None
      end
  end.

(** Observations on the call log. *)
Definition is_recognize (c : call) : bool :=
  match c with Recognize _ _ => true | _ => false end.
Definition is_fetch (c : call) : bool :=
  match c with Fetch _ _ _ => true | _ => false end.
Definition is_terminate (c : call) : bool :=
  match c with Terminate => true | _ => false end.

Definition count (f : call → bool) (w : World) : nat := length (List.filter f (calls w)).

(** The values of an observation [f] after each event of a run, as long as
    the events can happen. *)
Fixpoint observe {A} (f : World → A) (w : World) (evs : list event) : list A :=
  match evs with
  | [] => []
  | ev :: evs' =>
      match step w ev with
      | Some w' => f w' :: observe f w' evs'
      | None => []
      end
  end.

(** The numeric value of a finite [Math.round] result (minus zero is zero). *)
Definition to_Z (r : integral) : option Z :=
  match r with
  | IInt z => Some z
  | INegZero => Some 0
  | _ => None
  end.

(** The raw text of a recognition result is blank or missing. *)
Definition blank_result (r : RecognizeResult) : Prop :=
  match data r with
  | Some d => match text d with Some t => blank t | None => True end
  | None => True
  end.


(** A screenshot that fails the test of line 127: null or the empty string. *)
Definition falsy_shot (shot : option jsstring) : Prop :=
  shot = None ∨ shot = Some [].

(** Two worlds that differ at most in the published progress. *)
Definition same_but_progress (w w' : World) : Prop :=
  imageSrc (ui w') = imageSrc (ui w) ∧ ocrText (ui w') = ocrText (ui w) ∧
  matches (ui w') = matches (ui w) ∧ warning (ui w') = warning (ui w) ∧
  loadingOcr (ui w') = loadingOcr (ui w) ∧
  isWorkerReady (ui w') = isWorkerReady (ui w) ∧
  workerRef w' = workerRef w ∧ pending w' = pending w ∧
  next_id w' = next_id w ∧ calls w' = calls w ∧
  uncaught w' = uncaught w ∧ phase w' = phase w.

Definition network_warning : jsstring := lit "Network error when contacting backend.".

(** *** Sample inputs *)

(** The engine comes up: mount, then [load], [loadLanguage] and
    [initialize] resolve. *)
Definition engine_ready : list event :=
  [Mount; Settle 0 (Done (Resolved tt)); Settle 0 (Done (Resolved tt));
   Settle 0 (Done (Resolved tt))].

Definition page (s : string) : RecognizeResult :=
  {| data := Some {| text := Some (lit s) |} |}.

Definition paracetamol : MatchResult :=
  {| name := lit "Paracetamol"; score := JNumber num_0_1 |}.

Definition ibuprofen : MatchResult :=
  {| name := lit "Ibuprofen"; score := JNumber num_0_1 |}.

Definition body (ms : option (list MatchResult)) (wn : option jsstring) : settlement :=
  BodyJson (Resolved (Some {| data_matches := ms; data_warning := wn |})).

(** A capture gets as far as the parsing of a successful response. *)
Definition capture_to_json : list event :=
  engine_ready ++
  [ClickCapture (Some (lit "data:image/jpeg;base64,AAAA"));
   Settle 1 (Recognized (Resolved (page "PARACETAMOL 500mg")));
   Settle 1 (Fetched (Resolved true))].



(** What a failed recognition changes: the flag goes down and the
    no-text outcome is published; text, preview and progress are as they
    were, the error is logged, no request is made, nothing is uncaught
    and the job is over. *)
Definition recognition_failed (w w' : World) (k : nat) : Prop :=
  loadingOcr (ui w') = false ∧
  matches (ui w') = [] ∧ warning (ui w') = Some (lit "No text found by OCR.") ∧
  ocrText (ui w') = ocrText (ui w) ∧ ocrProgress (ui w') = ocrProgress (ui w) ∧
  imageSrc (ui w') = imageSrc (ui w) ∧
  calls w' = calls w ++ [ConsoleError (lit "OCR error:")] ∧
  pending w' !! k = None ∧ uncaught w' = uncaught w.

(** The world a run from the initial world ends in. *)
Definition world_after (evs : list event) : World :=
  default initial_world (run initial_world evs).

Definition is_alert (c : call) : bool :=
  match c with Alert _ => true | _ => false end.

Definition jpeg1 : jsstring := lit "data:image/jpeg;base64,AAAA".
Definition jpeg2 : jsstring := lit "data:image/jpeg;base64,BBBB".

(** The engine is ready and a capture is parked on [recognize] as job 1. *)
Definition capturing : list event := engine_ready ++ [ClickCapture (Some jpeg1)].

(** Job 1 is started and recognized; job 2 is started before job 1's
    catalog answer, runs to its end and publishes Ibuprofen; job 1's
    response then arrives and is about to be parsed. *)
Definition overtaken : list event :=
  capturing ++
  [Settle 1 (Recognized (Resolved (page "PARACETAMOL 500mg")));
   ClickCapture (Some jpeg2);
   Settle 2 (Recognized (Resolved (page "IBUPROFEN 200mg")));
   Settle 2 (Fetched (Resolved true));
   Settle 2 (body (Some [ibuprofen]) None);
   Settle 1 (Fetched (Resolved true))].


(** The double 0.5. *)
Definition num_0_5 : number := S754_finite false 4503599627370496 (-53).

Definition recognizing (p : number) : LogMessage :=
  {| status := JString (lit "recognizing text"); progress := JNumber p |}.

(** A capture reaches 50% and then its recognition fails. *)
Definition half_way_then_fails : list event :=
  capturing ++ [Log (recognizing num_0_5); Settle 1 (Recognized Rejected)].

(** An upload read while the engine is still loading. *)
Definition early_upload : list event := [Mount; FileChange [lit "label.jpg"]].

(** The awaits of [initWorker], the one function whose rejections nobody
    handles. *)
Definition init_stage (at_ : suspended) : bool :=
  match at_ with
  | AtLoad | AtLoadLanguage | AtInitialize => true
  | _ => false
  end.

(** What the lifecycle phase says about the worker ref and the number of
    [terminate] calls made. *)
Definition teardown_inv (w : World) : Prop :=
  match phase w with
  | Rendered => workerRef w = None ∧ count is_terminate w = 0%nat
  | Mounted => workerRef w ≠ None ∧ count is_terminate w = 0%nat
  | Unmounted => workerRef w ≠ None ∧ count is_terminate w = 1%nat
  end.

(** A step that is not part of the lifecycle: phase, ref and the number of
    [terminate] calls are as before. *)
Definition lifecycle_frame (w w' : World) : Prop :=
  phase w' = phase w ∧ workerRef w' = workerRef w ∧
  count is_terminate w' = count is_terminate w.

(** A capture is in flight when the component unmounts. *)
Definition unmount_in_flight : list event := capturing ++ [Unmount].

(* ===================================================================== *)
(** ** Exact values, for the proofs about rounding *)
(* ===================================================================== *)

(** Every finite double is a multiple of 2^-1074; values are handled as
    integers, in units of 2^-scale. *)
Definition scale : Z := 1200.

(** The value of a number times 2^scale (zero for what is not finite). *)
Definition scaled (x : number) : Z :=
  match x with
  | S754_finite s m e => cond_Zopp s (Zpos m * 2 ^ (e + scale))
  | _ => 0
  end.

(** [n / u] rounded to the nearest integer, ties to even. *)
Definition rne (n u : Z) : Z :=
  match 2 * (n mod u) ?= u with
  | Lt => n / u
  | Eq => if Z.even (n / u) then n / u else n / u + 1
  | Gt => n / u + 1
  end.

(** The spacing of the doubles around the scaled value [n]. *)
Definition spacing (n : Z) : Z :=
  2 ^ Z.max (Z.log2 n + 1 - prec) (emin prec emax + scale).

(** The scaled value of the double nearest to the scaled value [n]. *)
Definition nearest (n : Z) : Z := spacing n * rne n (spacing n).

(** The percentage published for a progress of scaled value [n]. *)
Definition percent_at (n : Z) : Z := (nearest (100 * n) + 2 ^ (scale - 1)) / 2 ^ scale.

(** The remainder [rem] of a shift by [u], as the round and sticky bits
    [r] and [s] record it. *)
Definition bits_locate (rem u : Z) (r s : bool) : Prop :=
  match r, s with
  | false, false => rem = 0
  | false, true => 0 < 2 * rem < u
  | true, false => 2 * rem = u
  | true, true => u < 2 * rem
  end.

(** [mrs] is [m] shifted right by [log2 u] bits. *)
Definition shifted (m u : Z) (mrs : shr_record) : Prop :=
  ∃ rem, m = shr_m mrs * u + rem ∧ 0 ≤ rem < u ∧ 0 ≤ shr_m mrs ∧
         bits_locate rem u (shr_r mrs) (shr_s mrs).

(** The numbers 0 and 1. *)
Definition num_0 : number := S754_zero false.
Definition num_1 : number := number_of_positive 1.

(** A progress the engine may report: a well-formed double in [0,1]. *)
Definition in_unit_interval (p : number) : Prop :=
  well_formed p = true ∧ num_leb num_0 p = true ∧ num_leb p num_1 = true.

(** The progress a message reports for the recognition stage, if it is one
    of those. *)
Definition recognition_progress (m : LogMessage) : option number :=
  match status m, progress m with
  | JString s, JNumber p => if decide (s = lit "recognizing text") then Some p else None
  | _, _ => None
  end.

(** What the engine promises about the notifications of one job: the
    recognition progress stays in [0,1] and never goes down. *)
Definition engine_contract (ms : list LogMessage) : Prop :=
  Forall in_unit_interval (omap recognition_progress ms) ∧
  Sorted (λ p q, num_leb p q = true) (omap recognition_progress ms).

(** The notifications of a sample job: the core is loaded, then the
    recognition goes from 10% over 50% to 100%. *)
Definition sample_log : list LogMessage :=
  [ {| status := JString (lit "loading tesseract core"); progress := JNumber num_1 |};
    recognizing num_0_1; recognizing num_0_5;
    {| status := JString (lit "recognizing text"); progress := JUndefined |};
    recognizing num_1 ].

(** The two triggers of a job: a click on the (enabled) capture button that
    yields the image [img], or the end of the read of an uploaded file,
    whose data URL is [img]. *)
Definition starts (w : World) (ev : event) (img : jsstring) : Prop :=
  (ev = ClickCapture (Some img) ∧ phase w ≠ Unmounted ∧
   isWorkerReady (ui w) = true ∧ img ≠ []) ∨
  (∃ k, ev = Settle k (FileRead img) ∧ pending w !! k = Some AtFileRead).

(** The activation number of the job a trigger starts. *)
Definition job_of (w : World) (ev : event) : nat :=
  match ev with
  | Settle k _ => k
  | _ => next_id w
  end.

(** The upload of [early_upload] has been read when the engine is ready. *)
Definition upload_read : list event :=
  early_upload ++
  [Settle 0 (Done (Resolved tt)); Settle 0 (Done (Resolved tt));
   Settle 0 (Done (Resolved tt))].

(* ===================================================================== *)
(** ** Runs of the component, and what it renders *)
(* ===================================================================== *)

(** The worlds the component can be in: those a run from the first render
    ends in. *)
Definition reachable (w : World) : Prop := ∃ evs, run initial_world evs = Some w.

(** The warning of line 83. *)
Definition no_text_warning : jsstring := lit "No text found by OCR.".

(** What line 103 leaves published for a body's [warning], given what
    line 81 had set. *)
Definition passed_warning (d : CatalogData) : option jsstring :=
  match data_warning d with
  | Some s => if truthy_string s then Some s else None
  | None => None
  end.

(** What is published when job [k], started on the image [img], has run
    to its end with the recognized text [txt] and the catalog body [d]:
    preview, text, matches and warning of that job, the flag down, one
    recognize call and one fetch made for it, nothing uncaught. *)
Definition job_done (w w' : World) (k : nat) (img txt : jsstring) (d : CatalogData) : Prop :=
  imageSrc (ui w') = Some img ∧ ocrText (ui w') = txt ∧
  loadingOcr (ui w') = false ∧
  matches (ui w') = default [] (data_matches d) ∧
  warning (ui w') = passed_warning d ∧
  List.filter is_recognize (calls w') = List.filter is_recognize (calls w) ++ [Recognize k img] ∧
  List.filter is_fetch (calls w') =
    List.filter is_fetch (calls w) ++ [Fetch k BACKEND_SEARCH_ENDPOINT txt] ∧
  pending w' !! k = None ∧ uncaught w' = uncaught w.




(** Activation numbers are handed out in order: what is parked has a
    number below the next one. *)
Definition fresh_ids (w : World) : Prop :=
  ∀ k at_, pending w !! k = Some at_ → (k < next_id w)%nat.

(** The calls that create and initialize the engine (lines 22-33). *)
Definition is_worker_call (c : call) : bool :=
  match c with
  | CreateWorker | WorkerLoad | WorkerLoadLanguage _ | WorkerInitialize _ => true
  | _ => false
  end.

Definition worker_calls (w : World) : list call := List.filter is_worker_call (calls w).

(** [createWorker], [load], [loadLanguage('eng')], [initialize('eng')]. *)
Definition init_sequence : list call :=
  [CreateWorker; WorkerLoad; WorkerLoadLanguage (lit "eng"); WorkerInitialize (lit "eng")].

(** [initWorker] is parked at [at_] as activation [k], and nothing else is
    parked at one of its awaits. *)
Definition init_parked (w : World) (k : nat) (at_ : suspended) : Prop :=
  pending w !! k = Some at_ ∧
  ∀ k' at', pending w !! k' = Some at' → init_stage at' = true → k' = k.

Definition no_init_parked (w : World) : Prop :=
  ∀ k at_, pending w !! k = Some at_ → init_stage at_ = false.

(** How far [initWorker] has come. *)
Variant init_progress :=
| InitNotStarted
| InitAwaiting (k : nat) (at_ : suspended)
| InitDone
| InitFailed (k : nat).

(** The number of engine calls made when [initWorker] awaits at [at_]. *)
Definition calls_before (at_ : suspended) : nat :=
  match at_ with
  | AtLoad => 2
  | AtLoadLanguage => 3
  | _ => 4
  end.

(** What each stage of [initWorker] means for the world. *)
Definition init_at (w : World) (st : init_progress) : Prop :=
  match st with
  | InitNotStarted =>
      phase w = Rendered ∧ workerRef w = None ∧ worker_calls w = [] ∧
      isWorkerReady (ui w) = false ∧ uncaught w = [] ∧ no_init_parked w
  | InitAwaiting k at_ =>
      phase w ≠ Rendered ∧ workerRef w ≠ None ∧ init_stage at_ = true ∧
      init_parked w k at_ ∧ worker_calls w = take (calls_before at_) init_sequence ∧
      isWorkerReady (ui w) = false ∧ uncaught w = []
  | InitDone =>
      phase w ≠ Rendered ∧ workerRef w ≠ None ∧ no_init_parked w ∧
      worker_calls w = init_sequence ∧
      isWorkerReady (ui w) = true ∧ uncaught w = []
  | InitFailed k =>
      phase w ≠ Rendered ∧ workerRef w ≠ None ∧ no_init_parked w ∧
      (∃ n, (2 ≤ n)%nat ∧ worker_calls w = take n init_sequence) ∧
      isWorkerReady (ui w) = false ∧ uncaught w = [UnhandledRejection k]
  end.

Definition init_inv (w : World) : Prop := ∃ st, init_at w st.

(** A step that is none of [initWorker]'s: everything [init_at] looks at
    is as before. *)
Definition init_frame (w w' : World) : Prop :=
  (phase w' = Rendered ↔ phase w = Rendered) ∧
  workerRef w' = workerRef w ∧ worker_calls w' = worker_calls w ∧
  isWorkerReady (ui w') = isWorkerReady (ui w) ∧ uncaught w' = uncaught w ∧
  ∀ k at_, init_stage at_ = true →
           (pending w' !! k = Some at_ ↔ pending w !! k = Some at_).

(** The engine fails to load. *)
Definition load_fails : list event := [Mount; Settle 0 (Done Rejected)].

(** A file is chosen after the engine has failed to load. *)
Definition upload_after_failure : list event := load_fails ++ [FileChange [lit "label.jpg"]].

(** *** What is rendered (lines 144-235) *)

(** The parts of the returned element that depend on the state, one field
    for each expression in braces. *)
Variant Preview :=
| PreviewImage (src : jsstring)     (* <img src={imageSrc}> *)
| PreviewPlaceholder.               (* "No image selected" *)

Variant OcrArea :=
| RunningOcr (label : jsstring) (value : integral)   (* the paragraph and the progress bar *)
| ExtractedText (text : jsstring).                   (* the <pre> *)

(** One [<li>] of the list of matches. *)
Record MatchItem := {
  key : nat;
  className : jsstring;
  match_name : jsstring;
  match_score : jsstring
}.

Variant Results :=
| NoResults                          (* "No results yet. Upload/capture an image to start." *)
| MatchList (items : list MatchItem).

Record View := {
  capture_disabled : bool;           (* disabled={!isWorkerReady} *)
  init_hint : bool;                  (* {!isWorkerReady && <p className="hint">...} *)
  preview : Preview;
  ocr_area : OcrArea;
  warning_box : option jsstring;     (* {warning && <div className="warning">...} *)
  results : Results
}.

Definition em_dash : jsstring := [8212%N].

(** The body of [matches.map((m, i) => ...)] (lines 220-225). *)
Definition render_match (i : nat) (m : MatchResult) : MatchItem :=
  {| key := i;
     className := if Nat.eqb i 0 then lit "best" else [];
     match_name := name m;
     match_score := lit "Confidence: " ++ scoreToPercent (score m) |}.

Definition render (p : Presentation) : View :=
  {| capture_disabled := negb (isWorkerReady p);
     init_hint := negb (isWorkerReady p);
     preview :=
       match imageSrc p with
       | Some src => if truthy_string src then PreviewImage src else PreviewPlaceholder
       | None => PreviewPlaceholder
       end;
     ocr_area :=
       if loadingOcr p
       then RunningOcr (lit "Running OCR... " ++ NumberToString (ocrProgress p) ++ lit "%")
                       (ocrProgress p)
       else ExtractedText (if truthy_string (ocrText p) then ocrText p else em_dash);
     warning_box :=
       match warning p with
       | Some s => if truthy_string s then Some s else None
       | None => None
       end;
     results :=
       match matches p with
       | [] => NoResults
       | ms => MatchList (imap render_match ms)
       end |}.

(** A text that neither starts nor ends with white space. *)
Definition trimmed (s : jsstring) : Prop :=
  (∀ c t, s = c :: t → is_white_space c = false) ∧
  (∀ c t, s = t ++ [c] → is_white_space c = false).

(** While the loading flag is up, some job is parked on [recognize]. *)
Definition loading_inv (w : World) : Prop :=
  loadingOcr (ui w) = true → ∃ k, pending w !! k = Some AtRecognize.

(** What is published as text and as warning. *)
Definition published_inv (w : World) : Prop :=
  trim (ocrText (ui w)) = ocrText (ui w) ∧ warning (ui w) ≠ Some [].

(** A capture has been recognized and its search is out. *)
Definition recognized : list event :=
  capturing ++ [Settle 1 (Recognized (Resolved (page "  PARACETAMOL 500mg ")))].

(** The confidence a line of the list may show for a match. *)
Definition confidence_shown (m : MatchResult) (shown : jsstring) : Prop :=
  match score m with
  | JNumber s =>
      is_nan s = false →
      ∃ p : Z, 0 ≤ p ≤ 100 ∧ shown = lit "Confidence: " ++ decimal (Z.to_N p) ++ lit "%"
  | _ => shown = lit "Confidence: " ++ em_dash
  end.

(** A capture whose search finds two products. *)
Definition two_matches_found : list event :=
  capture_to_json ++ [Settle 1 (body (Some [paracetamol; ibuprofen]) None)].

(** *** The calls of one job *)

(** The calls made for activation [k]. *)
Definition for_job (k : nat) (c : call) : bool :=
  match c with
  | Recognize j _ | Fetch j _ _ | ResText j | ResJson j | ReadAsDataURL j _ => Nat.eqb j k
  | _ => false
  end.

Definition job_calls (k : nat) (w : World) : list call := List.filter (for_job k) (calls w).

(** What a job calls, in the order of the source: for an upload the read
    of the file (line 121); [recognize] (line 66); [fetch] (line 88);
    [res.text()] when the response is not ok (line 95) and [res.json()]
    when it is (line 101). *)
Definition job_sequence (k : nat) (file : option jsstring) (img t : jsstring) (ok : bool)
    : list call :=
  match file with Some f => [ReadAsDataURL k f] | None => [] end ++
  [Recognize k img; Fetch k BACKEND_SEARCH_ENDPOINT t; if ok then ResJson k else ResText k].

Definition reads (file : option jsstring) : nat :=
  match file with Some _ => 1 | None => 0 end.

(** How many calls of its sequence a job has made when it is parked at
    [at_]. *)
Definition job_stage (at_ : option suspended) (file : option jsstring) (ok : bool) (n : nat)
    : Prop :=
  match at_ with
  | Some AtFileRead => file ≠ None ∧ n = 1%nat
  | Some AtRecognize => n = (reads file + 1)%nat
  | Some AtFetch => n = (reads file + 2)%nat
  | Some AtResText => n = (reads file + 3)%nat ∧ ok = false
  | Some AtResJson => n = (reads file + 3)%nat ∧ ok = true
  | Some _ => n = 0%nat
  | None => True
  end.

Definition job_at (w : World) (k : nat) : Prop :=
  ∃ file img t ok n,
    job_stage (pending w !! k) file ok n ∧
    job_calls k w = take n (job_sequence k file img t ok) ∧
    t ≠ [] ∧ trim t = t.

Definition job_inv (w : World) : Prop :=
  fresh_ids w ∧ (∀ k, (next_id w ≤ k)%nat → job_calls k w = []) ∧ ∀ k, job_at w k.

(** An upload runs to the parsing of its search's response. *)
Definition upload_to_json : list event :=
  engine_ready ++
  [FileChange [lit "label.jpg"];
   Settle 1 (FileRead jpeg1);
   Settle 1 (Recognized (Resolved (page "PARACETAMOL 500mg")));
   Settle 1 (Fetched (Resolved true))].
(* ===================================================================== *)
(** * Properties *)
(* ===================================================================== *)

Example scoreToPercent_0_1 : scoreToPercent (JNumber num_0_1) = lit "90%".
Proof. vm_compute. reflexivity. Qed.

Example NumberToString_1e22 : NumberToString (IInt (10 ^ 22)) = lit "1e+22".
Proof. vm_compute. reflexivity. Qed.

Example NumberToString_2_69 :
  NumberToString (IInt (2 ^ 69)) = lit "590295810358705700000".
Proof. vm_compute. reflexivity. Qed.

Example NumberToString_2_70 :
  NumberToString (IInt (- 2 ^ 70)) = lit "-1.1805916207174113e+21".
Proof. vm_compute. reflexivity. Qed.

Example number_of_positive_100 :
  number_of_positive 100 = S754_finite false 7036874417766400 (-46).
Proof. vm_compute. reflexivity. Qed.

Example trim_label : trim (lit "  PARACETAMOL 500mg  ") = lit "PARACETAMOL 500mg".
Proof. vm_compute. reflexivity. Qed.

(** ** The monad *)

(** Runs the state-passing operations on a symbolic world. *)
Ltac psimpl :=
  cbn [ui workerRef pending next_id calls uncaught phase imageSrc ocrText matches
       warning loadingOcr ocrProgress isWorkerReady fst snd].

Ltac psimpl_all :=
  cbn [ui workerRef pending next_id calls uncaught phase imageSrc ocrText matches
       warning loadingOcr ocrProgress isWorkerReady fst snd] in *.

Ltac msimpl :=
  cbv beta iota zeta delta
    [exec mbind M_bind mret M_ret modify_ui setImageSrc setOcrText setMatches
     setWarning setLoadingOcr setOcrProgress setIsWorkerReady workerRef_current
     set_workerRef_current emit await resume activate raise set_phase];
  psimpl.

Lemma exec_bind {A B} (c : M A) (f : A → M B) (w : World) :
  exec (c ≫= f) w = exec (f (c w).1) (c w).2.
Proof. unfold exec, mbind, M_bind. destruct (c w); reflexivity. Qed.

Lemma run_app (w : World) (evs1 evs2 : list event) :
  run w (evs1 ++ evs2) = run w evs1 ≫= λ w', run w' evs2.
Proof.
  revert w. induction evs1 as [|ev evs1 IH]; intros w; simpl; [reflexivity|].
  destruct (step w ev); [apply IH | reflexivity].
Qed.

Lemma run_step (w w' : World) (ev : event) (evs : list event) :
  step w ev = Some w' → run w (ev :: evs) = run w' evs.
Proof. intros H. simpl. rewrite H. reflexivity. Qed.

Lemma run_then (w w' : World) (evs1 evs2 : list event) :
  run w evs1 = Some w' → run w (evs1 ++ evs2) = run w' evs2.
Proof. intros H. rewrite run_app, H. reflexivity. Qed.

Lemma run_one (w : World) (ev : event) : run w [ev] = step w ev.
Proof. simpl. destruct (step w ev); reflexivity. Qed.

(** ** Strings *)

Lemma trimStart_blank (s : jsstring) : blank s → trimStart s = [].
Proof.
  induction 1 as [|c s Hc _ IH]; simpl; [reflexivity|].
  rewrite Hc. exact IH.
Qed.

Lemma trim_blank (s : jsstring) : blank s → trim s = [].
Proof.
  intros H. unfold trim, trimEnd. rewrite (trimStart_blank s H). reflexivity.
Qed.

Lemma trimStart_head (s : jsstring) (c : code_unit) (t : jsstring) :
  trimStart s = c :: t → is_white_space c = false.
Proof.
  induction s as [|x s IH]; simpl; [discriminate|].
  destruct (is_white_space x) eqn:Hx; [exact IH|].
  intros [= -> _]. exact Hx.
Qed.

Lemma trimStart_fixed (s : jsstring) :
  (∀ c t, s = c :: t → is_white_space c = false) → trimStart s = s.
Proof.
  destruct s as [|c t]; simpl; [reflexivity|].
  intros H. rewrite (H c t eq_refl). reflexivity.
Qed.

Lemma trimStart_idem (s : jsstring) : trimStart (trimStart s) = trimStart s.
Proof.
  apply trimStart_fixed. intros c t H. exact (trimStart_head s c t H).
Qed.

Lemma trimStart_suffix (s : jsstring) : ∃ pre, s = pre ++ trimStart s.
Proof.
  induction s as [|x s [pre IH]]; simpl; [exists []; reflexivity|].
  destruct (is_white_space x).
  - exists (x :: pre). simpl. f_equal. exact IH.
  - exists []. reflexivity.
Qed.

(** What [trim] returns neither starts nor ends with white space, so
    trimming it again changes nothing. *)
Lemma trim_idem (s : jsstring) : trim (trim s) = trim s.
Proof.
  unfold trim, trimEnd.
  set (a := trimStart s). set (b := trimStart (rev a)).
  assert (Hb : trimStart (rev b) = rev b).
  { apply trimStart_fixed. intros c t Hc.
    destruct (trimStart_suffix (rev a)) as [pre Hpre]. fold b in Hpre.
    assert (Ha : a = c :: rev (pre ++ rev t)).
    { rewrite <- (rev_involutive a), Hpre, <- (rev_involutive b), Hc.
      simpl. rewrite app_assoc, rev_app_distr. reflexivity. }
    exact (trimStart_head s c _ Ha). }
  rewrite Hb, rev_involutive. unfold b. rewrite trimStart_idem. reflexivity.
Qed.

(** A blank text fails the test of line 82. *)
Lemma blank_refused (t : jsstring) :
  blank t → negb (truthy_string t) || negb (truthy_string (trim t)) = true.
Proof.
  intros H. rewrite (trim_blank t H). simpl. apply orb_true_r.
Qed.

Lemma recognized_text_blank (r : RecognizeResult) :
  blank_result r → recognized_text r = [].
Proof.
  unfold blank_result, recognized_text.
  destruct (data r) as [d|]; [|reflexivity].
  destruct (text d) as [t|]; [|reflexivity].
  intros H. destruct (truthy_string t); [apply trim_blank, H | reflexivity].
Qed.

(** ** Empty text (C3) *)

(** C3. A job whose extracted text is empty or whitespace-only never
    reaches the catalog: [queryBackend] on a blank text, and the whole
    continuation of a job whose recognition yields a blank or missing text,
    make no call at all (in particular no fetch), park nothing, and publish
    exactly matches = [] and warning = "No text found by OCR.". *)
Theorem C3_blank_text_skips_search :
  (∀ (w : World) (k : nat) (t : jsstring),
      blank t →
      let w' := exec (queryBackend k t) w in
      matches (ui w') = [] ∧
      warning (ui w') = Some (lit "No text found by OCR.") ∧
      calls w' = calls w ∧ pending w' = pending w) ∧
  (∀ (w : World) (k : nat) (r : RecognizeResult),
      pending w !! k = Some AtRecognize →
      blank_result r →
      ∃ w', step w (Settle k (Recognized (Resolved r))) = Some w' ∧
            matches (ui w') = [] ∧
            warning (ui w') = Some (lit "No text found by OCR.") ∧
            calls w' = calls w ∧
            count is_fetch w' = count is_fetch w ∧
            pending w' !! k = None).
Proof.
  split.
  - intros w k t Hb w'. subst w'. unfold queryBackend.
    rewrite (blank_refused t Hb). repeat split.
  - intros w k r Hk Hb. unfold step. rewrite Hk. cbn [continue].
    eexists. split; [reflexivity|].
    unfold start_recognized, runOcr_recognized, queryBackend.
    rewrite (recognized_text_blank r Hb). cbn.
    repeat split. apply lookup_delete_eq.
Qed.

(** ** Capture without an image (C10) *)

(** C10. When [getScreenshot] returns null (or the empty string),
    [handleCapture] only alerts: the presentation state, the worker ref,
    the parked activations and the faults are unchanged, and the one call
    made is the alert, so no recognize call and no fetch occur.  The same
    holds of the click event as a whole. *)
Theorem C10_capture_without_image (w : World) (shot : option jsstring) :
  falsy_shot shot →
  (∀ k, let w' := exec (handleCapture k shot) w in
        ui w' = ui w ∧
        calls w' = calls w ++ [Alert (lit "Could not capture image from camera.")] ∧
        pending w' = pending w ∧ workerRef w' = workerRef w ∧
        uncaught w' = uncaught w) ∧
  (∀ w', step w (ClickCapture shot) = Some w' →
        ui w' = ui w ∧
        calls w' = calls w ++ [Alert (lit "Could not capture image from camera.")] ∧
        pending w' = pending w ∧
        count is_recognize w' = count is_recognize w ∧
        count is_fetch w' = count is_fetch w).
Proof.
  intros Hs.
  assert (Hh : ∀ k w0, exec (handleCapture k shot) w0 =
                       exec (emit (Alert (lit "Could not capture image from camera."))) w0).
  { intros k w0. destruct Hs as [-> | ->]; reflexivity. }
  split.
  - intros k w'. subst w'. rewrite Hh. destruct (ui w) eqn:E. cbn. rewrite E. repeat split.
  - intros w' Hstep. unfold step in Hstep.
    assert (Hw : w' = exec (k ← activate; handleCapture k shot) w).
    { destruct (phase w); [| |discriminate];
        destruct (isWorkerReady (ui w)); congruence. }
    subst w'. rewrite exec_bind, Hh. unfold count. cbn.
    rewrite !List.filter_app. cbn. rewrite !app_nil_r. repeat split.
Qed.

Lemma C10_capture_without_image_witness :
  falsy_shot None ∧
  calls (exec (handleCapture 0 None) initial_world) =
    [Alert (lit "Could not capture image from camera.")].
Proof.
  split; [left; reflexivity|].
  exact (proj1 (proj2 (proj1 (C10_capture_without_image initial_world None
                                (or_introl eq_refl)) 0%nat))).
Defined.

(** ** Parsing a successful catalog response (C6) *)

Lemma step_parsed (w : World) (k : nat) (d : CatalogData) :
  pending w !! k = Some AtResJson →
  step w (Settle k (BodyJson (Resolved (Some d)))) =
  Some {| ui := {| imageSrc := imageSrc (ui w); ocrText := ocrText (ui w);
                   matches := default [] (data_matches d);
                   warning := match data_warning d with
                              | Some s => if truthy_string s then Some s
                                          else warning (ui w)
                              | None => warning (ui w)
                              end;
                   loadingOcr := loadingOcr (ui w); ocrProgress := ocrProgress (ui w);
                   isWorkerReady := isWorkerReady (ui w) |};
          workerRef := workerRef w;
          pending := delete k (pending w);
          next_id := next_id w;
          calls := calls w;
          uncaught := uncaught w; phase := phase w |}.
Proof.
  intros Hk. unfold step. rewrite Hk. cbn [continue]. f_equal.
  unfold queryBackend_json. destruct (data_warning d) as [s|]; [|reflexivity].
  destruct (truthy_string s); reflexivity.
Qed.

(** The claim as worded fails for a warning that is present but empty: the
    test of line 103 is a truthiness test, so the empty string is dropped
    and the published warning stays null. *)
Lemma C6_empty_warning_not_passed :
  let d := {| data_matches := Some [paracetamol]; data_warning := Some [] |} in
  ∃ w w', run initial_world capture_to_json = Some w ∧
          pending w !! 1%nat = Some AtResJson ∧
          step w (Settle 1 (BodyJson (Resolved (Some d)))) = Some w' ∧
          matches (ui w') = [paracetamol] ∧
          warning (ui w') = None ∧
          warning (ui w') ≠ data_warning d.
Proof.
  cbv zeta. eexists. eexists.
  split; [vm_compute; reflexivity|].
  split; [vm_compute; reflexivity|].
  split; [vm_compute; reflexivity|].
  split; [reflexivity|]. split; [reflexivity|]. discriminate.
Qed.

(** C6 (amended). For every successful catalog response parsed by an
    activation parked on [res.json()]: the published matches are the
    body's [matches], or the empty list when the field is missing; a
    present non-empty [warning] is published verbatim, next to the matches
    (it does not hide them); a missing or empty [warning] leaves the
    published warning as it was.  Nothing else is called or parked. *)
Theorem C6_parse_success (w : World) (k : nat) (d : CatalogData) :
  pending w !! k = Some AtResJson →
  ∃ w', step w (Settle k (BodyJson (Resolved (Some d)))) = Some w' ∧
        matches (ui w') = default [] (data_matches d) ∧
        (data_matches d = None → matches (ui w') = []) ∧
        (∀ ms, data_matches d = Some ms → matches (ui w') = ms) ∧
        (∀ s, data_warning d = Some s → s ≠ [] → warning (ui w') = Some s) ∧
        (data_warning d = None ∨ data_warning d = Some [] →
         warning (ui w') = warning (ui w)) ∧
        calls w' = calls w ∧ pending w' !! k = None.
Proof.
  intros Hk. rewrite (step_parsed w k d Hk). eexists. split; [reflexivity|].
  psimpl. split; [reflexivity|].
  split; [intros ->; reflexivity|].
  split; [intros ms ->; reflexivity|].
  split; [intros [|c s] -> Hs; [congruence | reflexivity]|].
  split; [intros [-> | ->]; reflexivity|].
  split; [reflexivity | apply lookup_delete_eq].
Qed.

Lemma C6_parse_success_witness :
  ∃ w, run initial_world capture_to_json = Some w ∧
  ∃ w', step w (Settle 1 (body (Some [paracetamol]) (Some (lit "Low OCR confidence")))) = Some w' ∧
        matches (ui w') = [paracetamol] ∧
        warning (ui w') = Some (lit "Low OCR confidence").
Proof.
  eexists. split; [vm_compute; reflexivity|].
  match goal with |- ∃ w', step ?w (Settle ?k (body ?ms (Some ?s))) = _ ∧ _ =>
    destruct (C6_parse_success w k {| data_matches := ms; data_warning := Some s |}
                ltac:(vm_compute; reflexivity))
      as (w' & Hstep & _ & _ & Hm & Hw & _)
  end.
  exists w'. split; [exact Hstep|]. split.
  - apply Hm. reflexivity.
  - apply Hw; [reflexivity | discriminate].
Defined.

(** ** Progress notifications leave everything but the progress alone *)

Lemma same_but_progress_refl (w : World) : same_but_progress w w.
Proof. repeat split. Qed.

Lemma same_but_progress_trans (w1 w2 w3 : World) :
  same_but_progress w1 w2 → same_but_progress w2 w3 → same_but_progress w1 w3.
Proof.
  unfold same_but_progress. intros H12 H23.
  repeat match goal with H : _ ∧ _ |- _ => destruct H end.
  repeat split; congruence.
Qed.

Lemma logger_same (m : LogMessage) (w : World) :
  same_but_progress w (exec (logger m) w).
Proof.
  unfold logger. destruct (status m), (progress m); try apply same_but_progress_refl.
  case (decide _); intros _; [|apply same_but_progress_refl].
  msimpl. repeat split.
Qed.

Lemma run_logs (ms : list LogMessage) (w : World) :
  workerRef w ≠ None →
  ∃ w', run w (map Log ms) = Some w' ∧ same_but_progress w w'.
Proof.
  revert w. induction ms as [|m ms IH]; intros w Hw; simpl.
  - exists w. split; [reflexivity | apply same_but_progress_refl].
  - destruct (workerRef w) eqn:E; [|congruence].
    pose proof (logger_same m w) as Hs.
    destruct (IH (exec (logger m) w)) as (w' & Hrun & Hs').
    + destruct Hs as (_ & _ & _ & _ & _ & _ & Hr & _). congruence.
    + exists w'. split; [exact Hrun|].
      exact (same_but_progress_trans _ _ _ Hs Hs').
Qed.

(** ** The steps of a job, as equations *)

(** A recognized text that is not empty passes the test of line 82: it is
    already trimmed. *)
Lemma recognized_text_accepted (r : RecognizeResult) :
  recognized_text r ≠ [] →
  negb (truthy_string (recognized_text r))
  || negb (truthy_string (trim (recognized_text r))) = false.
Proof.
  intros H.
  assert (Ht : trim (recognized_text r) = recognized_text r).
  { unfold recognized_text in *. destruct (data r) as [d|]; [|congruence].
    destruct (text d) as [t|]; [|congruence].
    destruct (truthy_string t); [apply trim_idem | congruence]. }
  rewrite Ht. destruct (recognized_text r); [congruence | reflexivity].
Qed.

Lemma step_recognized (w : World) (k : nat) (r : RecognizeResult) :
  pending w !! k = Some AtRecognize →
  recognized_text r ≠ [] →
  step w (Settle k (Recognized (Resolved r))) =
  Some {| ui := {| imageSrc := imageSrc (ui w); ocrText := recognized_text r;
                   matches := []; warning := None; loadingOcr := false;
                   ocrProgress := ocrProgress (ui w);
                   isWorkerReady := isWorkerReady (ui w) |};
          workerRef := workerRef w;
          pending := <[k := AtFetch]> (delete k (pending w));
          next_id := next_id w;
          calls := calls w ++ [Fetch k BACKEND_SEARCH_ENDPOINT (recognized_text r)];
          uncaught := uncaught w; phase := phase w |}.
Proof.
  intros Hk Hr. unfold step. rewrite Hk. cbn [continue]. f_equal.
  unfold start_recognized, runOcr_recognized, queryBackend. msimpl.
  rewrite (recognized_text_accepted r Hr). reflexivity.
Qed.

Lemma step_recognize_rejected (w : World) (k : nat) :
  pending w !! k = Some AtRecognize →
  step w (Settle k (Recognized Rejected)) =
  Some {| ui := {| imageSrc := imageSrc (ui w); ocrText := ocrText (ui w);
                   matches := []; warning := Some (lit "No text found by OCR.");
                   loadingOcr := false; ocrProgress := ocrProgress (ui w);
                   isWorkerReady := isWorkerReady (ui w) |};
          workerRef := workerRef w;
          pending := delete k (pending w);
          next_id := next_id w;
          calls := calls w ++ [ConsoleError (lit "OCR error:")];
          uncaught := uncaught w; phase := phase w |}.
Proof.
  intros Hk. unfold step. rewrite Hk. reflexivity.
Qed.

Lemma step_fetch_rejected (w : World) (k : nat) :
  pending w !! k = Some AtFetch →
  step w (Settle k (Fetched Rejected)) =
  Some {| ui := {| imageSrc := imageSrc (ui w); ocrText := ocrText (ui w);
                   matches := matches (ui w); warning := Some network_warning;
                   loadingOcr := loadingOcr (ui w); ocrProgress := ocrProgress (ui w);
                   isWorkerReady := isWorkerReady (ui w) |};
          workerRef := workerRef w;
          pending := delete k (pending w);
          next_id := next_id w;
          calls := calls w ++ [ConsoleError (lit "Network error:")];
          uncaught := uncaught w; phase := phase w |}.
Proof.
  intros Hk. unfold step. rewrite Hk. reflexivity.
Qed.



Lemma count_snoc (f : call → bool) (w w' : World) (c : call) :
  calls w' = calls w ++ [c] →
  count f w' = if f c then S (count f w) else count f w.
Proof.
  intros H. unfold count. rewrite H, List.filter_app, length_app. simpl.
  destruct (f c); simpl; lia.
Qed.

Lemma count_same (f : call → bool) (w w' : World) :
  calls w' = calls w → count f w' = count f w.
Proof. intros H. unfold count. rewrite H. reflexivity. Qed.

(** ** Catalog failure (C5) *)




(** ** Overlapping jobs (C1) *)

(** The claim fails: nothing in the component identifies a job, so the
    catalog answer of job 1, arriving after job 2 was started and has
    finished, replaces job 2's matches. *)
Lemma C1_late_result_overwrites :
  ∃ w w', run initial_world overtaken = Some w ∧
          next_id w = 3%nat ∧
          pending w !! 1%nat = Some AtResJson ∧ pending w !! 2%nat = None ∧
          ocrText (ui w) = lit "IBUPROFEN 200mg" ∧ matches (ui w) = [ibuprofen] ∧
          step w (Settle 1 (body (Some [paracetamol]) None)) = Some w' ∧
          ocrText (ui w') = lit "IBUPROFEN 200mg" ∧ matches (ui w') = [paracetamol] ∧
          matches (ui w') ≠ matches (ui w).
Proof.
  eexists. eexists.
  split; [vm_compute; reflexivity|].
  repeat (split; [vm_compute; reflexivity|]).
  vm_compute. discriminate.
Qed.

(** C1 (amended). The component keeps no job identifier: in every world,
    whatever jobs were started since, each callback of a parked activation
    is applied to the published state when it arrives.  A recognition
    result publishes its text and lowers the loading flag; a recognition
    failure lowers the flag and publishes the no-text outcome; a parsed
    catalog body publishes its matches; a failed fetch publishes the
    network warning; a recognition-stage progress notification publishes
    its percentage.  So what is observable is the outcome of the callback
    that ran last, not that of the job started last. *)
Theorem C1_callbacks_always_apply (w : World) (k : nat) :
  (pending w !! k = Some AtRecognize →
   (∀ r, ∃ w', step w (Settle k (Recognized (Resolved r))) = Some w' ∧
               ocrText (ui w') = recognized_text r ∧ loadingOcr (ui w') = false ∧
               matches (ui w') = []) ∧
   (∃ w', step w (Settle k (Recognized Rejected)) = Some w' ∧
          loadingOcr (ui w') = false ∧ matches (ui w') = [] ∧
          warning (ui w') = Some (lit "No text found by OCR."))) ∧
  (pending w !! k = Some AtResJson →
   ∀ d, ∃ w', step w (Settle k (BodyJson (Resolved (Some d)))) = Some w' ∧
              matches (ui w') = default [] (data_matches d)) ∧
  (pending w !! k = Some AtFetch →
   ∃ w', step w (Settle k (Fetched Rejected)) = Some w' ∧
         warning (ui w') = Some network_warning) ∧
  (workerRef w ≠ None →
   ∀ p, ∃ w', step w (Log (recognizing p)) = Some w' ∧
              ocrProgress (ui w') = Math_round (num_mul p (number_of_positive 100))).
Proof.
  split; [|split; [|split]].
  - intros Hk. split.
    + intros r. unfold step. rewrite Hk. cbn [continue].
      eexists. split; [reflexivity|].
      unfold start_recognized, runOcr_recognized, queryBackend. msimpl.
      destruct (_ || _); msimpl; repeat split.
    + rewrite (step_recognize_rejected w k Hk). eexists. split; [reflexivity|].
      repeat split.
  - intros Hk d. rewrite (step_parsed w k d Hk). eexists. split; reflexivity.
  - intros Hk. rewrite (step_fetch_rejected w k Hk). eexists. split; reflexivity.
  - intros Hw p. unfold step. destruct (workerRef w); [|congruence].
    eexists. split; reflexivity.
Qed.

Lemma C1_callbacks_always_apply_witness :
  pending (world_after overtaken) !! 1%nat = Some AtResJson ∧
  ∃ w', step (world_after overtaken) (Settle 1 (body (Some [paracetamol]) None)) = Some w' ∧
        matches (ui w') = [paracetamol].
Proof.
  split; [vm_compute; reflexivity|].
  exact (proj1 (proj2 (C1_callbacks_always_apply (world_after overtaken) 1))
           ltac:(vm_compute; reflexivity)
           {| data_matches := Some [paracetamol]; data_warning := None |}).
Defined.

Lemma C3_blank_text_skips_search_witness :
  pending (world_after capturing) !! 1%nat = Some AtRecognize ∧
  blank_result (page "   ") ∧
  ∃ w', step (world_after capturing) (Settle 1 (Recognized (Resolved (page "   ")))) = Some w' ∧
        matches (ui w') = [] ∧
        warning (ui w') = Some (lit "No text found by OCR.") ∧
        calls w' = calls (world_after capturing) ∧
        count is_fetch w' = count is_fetch (world_after capturing) ∧
        pending w' !! 1%nat = None.
Proof.
  assert (Hb : blank_result (page "   ")).
  { cbv [blank_result page data text]. repeat constructor. }
  split; [vm_compute; reflexivity|]. split; [exact Hb|].
  exact (proj2 C3_blank_text_skips_search (world_after capturing) 1%nat (page "   ")
           ltac:(vm_compute; reflexivity) Hb).
Defined.

(** ** Starting a job *)

Lemma start_parks (w : World) (k : nat) (img : jsstring) :
  workerRef w ≠ None →
  exec (start k img) w =
  {| ui := {| imageSrc := Some img; ocrText := [];
              matches := matches (ui w); warning := warning (ui w);
              loadingOcr := true; ocrProgress := IInt 0;
              isWorkerReady := isWorkerReady (ui w) |};
     workerRef := workerRef w;
     pending := <[k := AtRecognize]> (pending w);
     next_id := next_id w;
     calls := calls w ++ [Recognize k img];
     uncaught := uncaught w; phase := phase w |}.
Proof.
  intros Hw. unfold start, runOcr. msimpl.
  destruct (workerRef w) eqn:E; [reflexivity | congruence].
Qed.

Lemma step_capture (w : World) (img : jsstring) :
  phase w ≠ Unmounted → isWorkerReady (ui w) = true → workerRef w ≠ None →
  img ≠ [] →
  step w (ClickCapture (Some img)) =
  Some {| ui := {| imageSrc := Some img; ocrText := [];
                   matches := matches (ui w); warning := warning (ui w);
                   loadingOcr := true; ocrProgress := IInt 0;
                   isWorkerReady := isWorkerReady (ui w) |};
          workerRef := workerRef w;
          pending := <[next_id w := AtRecognize]> (pending w);
          next_id := S (next_id w);
          calls := calls w ++ [Recognize (next_id w) img];
          uncaught := uncaught w; phase := phase w |}.
Proof.
  intros Hp Hr Hw Hi.
  match goal with |- _ = Some ?t =>
    assert (He : exec (k ← activate; handleCapture k (Some img)) w = t)
  end.
  { rewrite exec_bind. unfold handleCapture.
    destruct img; [congruence|]. cbn [truthy_string].
    rewrite start_parks by exact Hw. reflexivity. }
  unfold step. rewrite He, Hr.
  destruct (phase w); [reflexivity | reflexivity | congruence].
Qed.

Lemma step_file_read (w : World) (k : nat) (img : jsstring) :
  pending w !! k = Some AtFileRead → workerRef w ≠ None →
  step w (Settle k (FileRead img)) =
  Some {| ui := {| imageSrc := Some img; ocrText := [];
                   matches := matches (ui w); warning := warning (ui w);
                   loadingOcr := true; ocrProgress := IInt 0;
                   isWorkerReady := isWorkerReady (ui w) |};
          workerRef := workerRef w;
          pending := <[k := AtRecognize]> (delete k (pending w));
          next_id := next_id w;
          calls := calls w ++ [Recognize k img];
          uncaught := uncaught w; phase := phase w |}.
Proof.
  intros Hk Hw. unfold step. rewrite Hk. cbn [continue]. f_equal.
  rewrite exec_bind. unfold reader_onload. rewrite start_parks by exact Hw.
  reflexivity.
Qed.

(** Either trigger sets the preview, clears text and progress, raises the
    loading flag, calls [recognize] and parks the job. *)
Lemma step_starts (w : World) (ev : event) (img : jsstring) :
  workerRef w ≠ None → starts w ev img →
  ∃ w0, step w ev = Some w0 ∧
        ui w0 = {| imageSrc := Some img; ocrText := [];
                   matches := matches (ui w); warning := warning (ui w);
                   loadingOcr := true; ocrProgress := IInt 0;
                   isWorkerReady := isWorkerReady (ui w) |} ∧
        workerRef w0 = workerRef w ∧
        pending w0 !! job_of w ev = Some AtRecognize ∧
        calls w0 = calls w ++ [Recognize (job_of w ev) img] ∧
        uncaught w0 = uncaught w.
Proof.
  intros Hw [(-> & Hp & Hr & Hi) | (k & -> & Hk)].
  - rewrite (step_capture w img Hp Hr Hw Hi). eexists. split; [reflexivity|].
    psimpl. cbn [job_of]. repeat split. apply lookup_insert_eq.
  - rewrite (step_file_read w k img Hk Hw). eexists. split; [reflexivity|].
    psimpl. cbn [job_of]. repeat split. apply lookup_insert_eq.
Qed.

(** ** Recognition failure (C4) *)

(** The claim fails on the progress: the catch block of [runOcr] lowers
    the loading flag and nothing else, so a job that had reported 50%
    before its recognition failed leaves 50 published. *)
Lemma C4_progress_not_cleared :
  ∃ w', run initial_world half_way_then_fails = Some w' ∧
        loadingOcr (ui w') = false ∧
        ocrProgress (ui w') = IInt 50 ∧
        ocrProgress (ui w') ≠ IInt 0.
Proof.
  eexists. split; [vm_compute; reflexivity|].
  split; [reflexivity|]. split; [reflexivity | discriminate].
Qed.

(** C4 (amended).  The failure of a recognition, in any world: when the
    [recognize] call of job [k] rejects, the rejection is caught (nothing
    is left uncaught) and logged, the loading flag is lowered, the
    extracted text is taken as empty, so no fetch is made and the
    outcome published is matches = [] with the warning "No text found by
    OCR."; the job is over.  The failure touches neither the published
    text nor the published progress: both are reset when a job starts and
    are as they were before the failure.  So for a job, started by a
    capture or by an upload, with only progress notifications between
    its start and the failure, the published text is the empty text set
    at the start and the progress is the last value notified. *)
Theorem C4_recognition_failure (w : World) :
  (∀ k, pending w !! k = Some AtRecognize →
        ∃ w', step w (Settle k (Recognized Rejected)) = Some w' ∧
              recognition_failed w w' k) ∧
  (∀ (ev : event) (img : jsstring) (ms : list LogMessage),
     workerRef w ≠ None → starts w ev img →
     ∃ w1 w', run w (ev :: map Log ms) = Some w1 ∧
              step w1 (Settle (job_of w ev) (Recognized Rejected)) = Some w' ∧
              loadingOcr (ui w1) = true ∧
              loadingOcr (ui w') = false ∧
              ocrText (ui w') = [] ∧
              ocrProgress (ui w') = ocrProgress (ui w1) ∧
              matches (ui w') = [] ∧
              warning (ui w') = Some (lit "No text found by OCR.") ∧
              count is_fetch w' = count is_fetch w ∧
              count is_recognize w' = S (count is_recognize w) ∧
              uncaught w' = uncaught w ∧
              pending w' !! job_of w ev = None).
Proof.
  split.
  { intros k Hk. rewrite (step_recognize_rejected w k Hk).
    eexists. split; [reflexivity|].
    unfold recognition_failed. psimpl. repeat split. apply lookup_delete_eq. }
  intros ev img ms.
  intros Hw Hev.
  destruct (step_starts w ev img Hw Hev) as (w0 & H0 & Hui & Hr0 & Hk0 & Hc0 & Hu0).
  destruct (run_logs ms w0 ltac:(congruence)) as (w1 & Hrun & Hs).
  destruct Hs as (_ & Ht & _ & _ & Hl & _ & _ & Hpd & _ & Hc & Hu & _).
  rewrite Hui in Ht, Hl. psimpl_all.
  assert (Hk : pending w1 !! job_of w ev = Some AtRecognize) by congruence.
  pose proof (step_recognize_rejected w1 (job_of w ev) Hk) as H2.
  set (w2 := {| ui := _ |}) in H2.
  exists w1, w2. split; [rewrite (run_step _ _ _ _ H0); exact Hrun|].
  split; [exact H2|].
  rewrite (count_snoc is_fetch w1 w2 _ eq_refl), (count_same _ w0 w1 Hc),
    (count_snoc is_fetch w w0 _ Hc0).
  rewrite (count_snoc is_recognize w1 w2 _ eq_refl), (count_same _ w0 w1 Hc),
    (count_snoc is_recognize w w0 _ Hc0).
  cbn [is_fetch is_recognize]. unfold w2. psimpl.
  repeat split; try assumption; try congruence. apply lookup_delete_eq.
Qed.

Lemma C4_recognition_failure_witness :
  starts (world_after upload_read) (Settle 1 (FileRead jpeg1)) jpeg1 ∧
  ∃ w1 w', run (world_after upload_read)
             (Settle 1 (FileRead jpeg1) :: map Log [recognizing num_0_5]) = Some w1 ∧
           step w1 (Settle 1 (Recognized Rejected)) = Some w' ∧
           loadingOcr (ui w1) = true ∧
           loadingOcr (ui w') = false ∧
           ocrText (ui w') = [] ∧
           ocrProgress (ui w') = ocrProgress (ui w1) ∧
           matches (ui w') = [] ∧
           warning (ui w') = Some (lit "No text found by OCR.") ∧
           count is_fetch w' = count is_fetch (world_after upload_read) ∧
           count is_recognize w' = S (count is_recognize (world_after upload_read)) ∧
           uncaught w' = uncaught (world_after upload_read) ∧
           pending w' !! 1%nat = None.
Proof.
  assert (Hs : starts (world_after upload_read) (Settle 1 (FileRead jpeg1)) jpeg1).
  { right. exists 1%nat. split; [reflexivity | vm_compute; reflexivity]. }
  split; [exact Hs|].
  exact (proj2 (C4_recognition_failure (world_after upload_read))
           (Settle 1 (FileRead jpeg1)) jpeg1 [recognizing num_0_5]
           ltac:(vm_compute; discriminate) Hs).
Defined.

(** ** Starting before the engine is ready (C2) *)

(** C2, at the failing input.  The engine is still loading ([workerRef] is
    set on line 30, before the first await, and [isWorkerReady] is false)
    when an uploaded file has been read: the guard of [runOcr] tests the
    ref, not the readiness, so the start is not refused.  No alert is made,
    [recognize] is called, the preview and the loading flag are set and
    the job is parked on the recognition. *)
Theorem C2_upload_while_initializing :
  ∃ w w', run initial_world early_upload = Some w ∧
          engineState w = Initializing ∧
          isWorkerReady (ui w) = false ∧
          step w (Settle 1 (FileRead jpeg1)) = Some w' ∧
          List.filter is_alert (calls w') = [] ∧
          List.filter is_recognize (calls w') = [Recognize 1 jpeg1] ∧
          imageSrc (ui w') = Some jpeg1 ∧
          loadingOcr (ui w') = true ∧
          pending w' !! 1%nat = Some AtRecognize.
Proof.
  eexists. eexists.
  split; [vm_compute; reflexivity|].
  repeat (split; [vm_compute; reflexivity|]).
  vm_compute; reflexivity.
Qed.

(** ** Teardown (C8) *)

Ltac unfold_handlers :=
  unfold initWorker, initWorker_loaded, initWorker_language, initWorker_initialized,
    cleanup, cleanup_terminated, handleCapture, handleFileChange, reader_onload,
    start_recognized, start, runOcr, runOcr_recognized, queryBackend,
    queryBackend_fetched, queryBackend_text, queryBackend_json, queryBackend_catch,
    logger.

(** Splits on whatever a handler branches on. *)
Ltac split_handler :=
  repeat (match goal with
          | |- context [match ?x with _ => _ end] =>
              lazymatch x with
              | context [match _ with _ => _ end] => fail
              | _ => destruct x eqn:?
              end
          end; msimpl).

Ltac count_calls :=
  unfold count; psimpl; rewrite ?List.filter_app;
  cbn [List.filter is_terminate is_fetch is_recognize app];
  rewrite ?app_nil_r.

Lemma continue_lifecycle_frame (w : World) (k : nat) (at_ : suspended)
    (s : settlement) (c : M unit) :
  continue k at_ s = Some c →
  lifecycle_frame w (exec (resume k;; c) w).
Proof.
  unfold lifecycle_frame.
  destruct at_, s; intros [= <-]; unfold_handlers; msimpl; split_handler;
    count_calls; repeat split.
Qed.

Lemma continue_uncaught (w : World) (k : nat) (at_ : suspended)
    (s : settlement) (c : M unit) :
  continue k at_ s = Some c →
  init_stage at_ = false →
  uncaught (exec (resume k;; c) w) = uncaught w.
Proof.
  destruct at_, s; intros [= <-] [=]; unfold_handlers; msimpl; split_handler;
    reflexivity.
Qed.

Lemma handlers_lifecycle_frame (w : World) :
  (∀ shot, lifecycle_frame w (exec (k ← activate; handleCapture k shot) w)) ∧
  (∀ files, lifecycle_frame w (exec (k ← activate; handleFileChange k files) w)) ∧
  (∀ m, lifecycle_frame w (exec (logger m) w)).
Proof.
  unfold lifecycle_frame.
  repeat split; unfold_handlers; msimpl; split_handler; count_calls; reflexivity.
Qed.

Lemma step_teardown_inv (w w' : World) (ev : event) :
  teardown_inv w → step w ev = Some w' → teardown_inv w'.
Proof.
  intros Hinv Hstep.
  assert (Hframe : lifecycle_frame w w' → teardown_inv w').
  { intros (Hp & Hr & Hc). unfold teardown_inv in *. rewrite Hp, Hr, Hc. exact Hinv. }
  destruct (handlers_lifecycle_frame w) as (Hcap & Hfile & Hlog).
  unfold step in Hstep. destruct ev as [| |m|shot|files|k s].
  - unfold teardown_inv in *. destruct (phase w); try discriminate.
    injection Hstep as <-. unfold_handlers. msimpl. destruct Hinv as [_ Hc].
    split; [discriminate|]. revert Hc. count_calls. intros ->. reflexivity.
  - unfold teardown_inv in *. destruct (phase w); try discriminate.
    injection Hstep as <-. unfold_handlers. msimpl. destruct Hinv as [Hr Hc].
    destruct (workerRef w) eqn:E; [|congruence]. msimpl.
    split; [discriminate|]. revert Hc. count_calls. rewrite length_app.
    intros ->. reflexivity.
  - destruct (workerRef w); [|discriminate]. injection Hstep as <-.
    apply Hframe, Hlog.
  - apply Hframe. destruct (phase w); try discriminate;
      destruct (isWorkerReady (ui w)); try discriminate;
      injection Hstep as <-; apply Hcap.
  - apply Hframe. destruct (phase w); try discriminate;
      injection Hstep as <-; apply Hfile.
  - destruct (pending w !! k) as [at_|]; [|discriminate].
    destruct (continue k at_ s) as [c|] eqn:Ec; [|discriminate].
    injection Hstep as <-. apply Hframe.
    exact (continue_lifecycle_frame w k at_ s c Ec).
Qed.

Lemma run_teardown_inv (evs : list event) (w w' : World) :
  teardown_inv w → run w evs = Some w' → teardown_inv w'.
Proof.
  revert w. induction evs as [|ev evs IH]; intros w Hinv; simpl.
  - intros [= <-]. exact Hinv.
  - destruct (step w ev) as [w1|] eqn:E; [|discriminate].
    apply IH. exact (step_teardown_inv w w1 ev Hinv E).
Qed.

Lemma initial_teardown_inv : teardown_inv initial_world.
Proof. split; reflexivity. Qed.

(** C8. In every run of the component from its first render: [terminate]
    has been called exactly once when the component is unmounted and never
    before; the unmount step calls it whatever is in flight, touching
    neither the published state nor the parked jobs and raising nothing;
    the settlement of the terminate promise, fulfilled or rejected, changes
    nothing and raises nothing (the failure is swallowed); and no later
    settlement of a job's promise leaves a fault uncaught. *)
Theorem C8_teardown (evs : list event) (w : World) :
  run initial_world evs = Some w →
  count is_terminate w = (match phase w with Unmounted => 1 | _ => 0 end)%nat ∧
  (∀ w', step w Unmount = Some w' →
         phase w' = Unmounted ∧
         calls w' = calls w ++ [Terminate] ∧
         count is_terminate w' = 1%nat ∧
         ui w' = ui w ∧ uncaught w' = uncaught w ∧
         pending w' = <[next_id w := AtTerminate]> (pending w)) ∧
  (∀ k o, pending w !! k = Some AtTerminate →
          ∃ w', step w (Settle k (Done o)) = Some w' ∧
                ui w' = ui w ∧ calls w' = calls w ∧ uncaught w' = uncaught w ∧
                pending w' !! k = None) ∧
  (∀ k at_ s w', pending w !! k = Some at_ → init_stage at_ = false →
                 step w (Settle k s) = Some w' →
                 uncaught w' = uncaught w).
Proof.
  intros Hrun.
  pose proof (run_teardown_inv evs _ _ initial_teardown_inv Hrun) as Hinv.
  split; [|split; [|split]].
  - unfold teardown_inv in Hinv. destruct (phase w); tauto.
  - intros w' Hstep.
    pose proof (step_teardown_inv w w' Unmount Hinv Hstep) as Hinv'.
    unfold step in Hstep. unfold teardown_inv in Hinv.
    destruct (phase w); try discriminate. destruct Hinv as [Hr _].
    injection Hstep as <-. unfold teardown_inv in Hinv'. revert Hinv'.
    unfold cleanup. msimpl. destruct (workerRef w); [|congruence]. msimpl.
    intros [_ Hc]. repeat split. exact Hc.
  - intros k o Hk. unfold step. rewrite Hk. cbn [continue].
    eexists. split; [reflexivity|].
    unfold cleanup_terminated. destruct o; msimpl; destruct (ui w);
      repeat split; apply lookup_delete_eq.
  - intros k at_ s w' Hk Hi Hstep. unfold step in Hstep. rewrite Hk in Hstep.
    destruct (continue k at_ s) as [c|] eqn:Ec; [|discriminate].
    injection Hstep as <-. exact (continue_uncaught w k at_ s c Ec Hi).
Qed.

Lemma C8_teardown_witness :
  run initial_world unmount_in_flight = Some (world_after unmount_in_flight) ∧
  pending (world_after unmount_in_flight) !! 1%nat = Some AtRecognize ∧
  count is_terminate (world_after unmount_in_flight) = 1%nat.
Proof.
  split; [vm_compute; reflexivity|]. split; [vm_compute; reflexivity|].
  exact (proj1 (C8_teardown unmount_in_flight (world_after unmount_in_flight)
                  ltac:(vm_compute; reflexivity))).
Defined.

(** ** Rounding never invents a NaN *)

Lemma iter_pos_invariant {A} (f : A → A) (P : A → Prop) :
  (∀ x, P x → P (f x)) → ∀ n x, P x → P (SpecFloat.iter_pos f n x).
Proof.
  intros Hf. induction n as [n IH|n IH|]; intros x Hx; simpl; auto.
Qed.

Lemma shr_1_nonneg (mrs : shr_record) : 0 ≤ shr_m mrs → 0 ≤ shr_m (shr_1 mrs).
Proof.
  destruct mrs as [m r s]. destruct m as [|p|p]; simpl; [lia| |lia].
  destruct p; simpl; lia.
Qed.

Lemma shr_nonneg (mrs : shr_record) (e n : Z) :
  0 ≤ shr_m mrs → 0 ≤ shr_m (shr mrs e n).1.
Proof.
  intros H. destruct n as [|p|p]; simpl; try exact H.
  apply iter_pos_invariant; [apply shr_1_nonneg | exact H].
Qed.

Lemma shr_record_of_loc_m (m : Z) (l : location) : shr_m (shr_record_of_loc m l) = m.
Proof. destruct l as [|[]]; reflexivity. Qed.

Lemma round_nearest_even_nonneg (m : Z) (l : location) :
  0 ≤ m → 0 ≤ round_nearest_even m l.
Proof.
  intros H. destruct l as [|[]]; simpl; try lia. destruct (Z.even m); lia.
Qed.

Lemma binary_round_aux_not_nan (sx : bool) (mx ex : Z) (lx : location) :
  0 ≤ mx → is_nan (binary_round_aux prec emax sx mx ex lx) = false.
Proof.
  intros H. unfold binary_round_aux, shr_fexp.
  destruct (shr (shr_record_of_loc mx lx) ex _) as [mrs' e'] eqn:E1.
  assert (H1 : 0 ≤ shr_m mrs').
  { change mrs' with (mrs', e').1. rewrite <- E1. apply shr_nonneg.
    rewrite shr_record_of_loc_m. exact H. }
  destruct (shr (shr_record_of_loc (round_nearest_even _ _) loc_Exact) e' _)
    as [mrs'' e''] eqn:E2.
  assert (H2 : 0 ≤ shr_m mrs'').
  { change mrs'' with (mrs'', e'').1. rewrite <- E2. apply shr_nonneg.
    rewrite shr_record_of_loc_m. apply round_nearest_even_nonneg, H1. }
  destruct (shr_m mrs'') as [|p|p]; [reflexivity| |lia].
  destruct (_ <=? _); reflexivity.
Qed.

Lemma binary_normalize_not_nan (m e : Z) (sz : bool) :
  is_nan (binary_normalize prec emax m e sz) = false.
Proof.
  destruct m as [|p|p]; [reflexivity| |]; unfold binary_normalize, binary_round;
    destruct (shl_align _ _ _) as [mz ez]; apply binary_round_aux_not_nan; lia.
Qed.

Lemma num_sub_not_nan (x y : number) :
  (∃ s m e, x = S754_finite s m e) → is_nan y = false → is_nan (num_sub x y) = false.
Proof.
  intros (s & m & e & ->) Hy. destruct y as [sy|sy| |sy my ey]; try reflexivity;
    [discriminate|].
  apply binary_normalize_not_nan.
Qed.

Lemma num_mul_not_nan (x y : number) :
  is_nan x = false → (∃ s m e, y = S754_finite s m e) → is_nan (num_mul x y) = false.
Proof.
  intros Hx (s & m & e & ->). destruct x as [sx|sx| |sx mx ex]; try reflexivity;
    [discriminate|].
  apply binary_round_aux_not_nan. lia.
Qed.

Lemma Math_round_not_nan (x : number) : is_nan x = false → Math_round x ≠ INaN.
Proof.
  destruct x as [[]|s| |s m e]; simpl; try discriminate.
  intros _. destruct (_ && _); discriminate.
Qed.

(** ** Confidence (C9) *)

(** A percentage prints all its digits. *)
Lemma NumberToString_percent (q : Z) :
  0 ≤ q ≤ 100 → NumberToString (IInt q) = decimal (Z.to_N q).
Proof.
  intros Hq.
  assert (H : forallb (λ n, bool_decide (NumberToString (IInt (Z.of_nat n))
                                         = decimal (Z.to_N (Z.of_nat n))))
                      (seq 0 101) = true) by (vm_compute; reflexivity).
  rewrite forallb_forall in H. specialize (H (Z.to_nat q)).
  rewrite Z2Nat.id in H by lia. apply bool_decide_eq_true in H; [exact H|].
  apply in_seq. lia.
Qed.

(** C9. For every match whose score is a number [s] (not NaN: JSON has no
    NaN), [scoreToPercent] displays [p%] where [p] is the rounding of
    [(1 - s) * 100] in double arithmetic, clamped to [0,100]: [p] is that
    integer when it lies in the range and the nearer bound otherwise, so
    0 <= p <= 100 always.  The score 0.1 is displayed as 90%. *)
Theorem C9_confidence_percent (s : number) :
  is_nan s = false →
  (∃ p : Z,
      scoreToPercent (JNumber s) = decimal (Z.to_N p) ++ lit "%" ∧
      0 ≤ p ≤ 100 ∧
      match Math_round (num_mul (num_sub (number_of_positive 1) s)
                          (number_of_positive 100)) with
      | IInt r => p = Z.max 0 (Z.min 100 r)
      | INegZero => p = 0
      | IInf negative => p = if negative then 0 else 100
      | INaN => False
      end) ∧
  scoreToPercent {| name := lit "Paracetamol"; score := JNumber num_0_1 |}.(score)
  = lit "90%".
Proof.
  intros Hs. split; [|vm_compute; reflexivity].
  unfold scoreToPercent, percent_of_score.
  assert (Hr : Math_round (num_mul (num_sub (number_of_positive 1) s)
                             (number_of_positive 100)) ≠ INaN).
  { apply Math_round_not_nan, num_mul_not_nan.
    - apply num_sub_not_nan; [|exact Hs]. vm_compute. eauto.
    - vm_compute. eauto. }
  destruct (Math_round _) as [|[]| |r]; [congruence| | | |].
  - exists 0. split; [reflexivity|]. split; [lia | reflexivity].
  - exists 100. split; [reflexivity|]. split; [lia | reflexivity].
  - exists 0. split; [reflexivity|]. split; [lia | reflexivity].
  - exists (Z.max 0 (Z.min 100 r)). split; [|split; [lia | reflexivity]].
    unfold Math_min, Math_max, integral_ltb.
    destruct (r <? 100) eqn:E1.
    + apply Z.ltb_lt in E1. destruct (0 <? r) eqn:E2.
      * apply Z.ltb_lt in E2.
        replace (Z.max 0 (Z.min 100 r)) with r by lia.
        rewrite NumberToString_percent by lia. reflexivity.
      * apply Z.ltb_ge in E2. replace (Z.max 0 (Z.min 100 r)) with 0 by lia.
        reflexivity.
    + apply Z.ltb_ge in E1. replace (Z.max 0 (Z.min 100 r)) with 100 by lia.
      reflexivity.
Qed.

Lemma C9_confidence_percent_witness :
  is_nan num_0_1 = false ∧
  ∃ p : Z, scoreToPercent (JNumber num_0_1) = decimal (Z.to_N p) ++ lit "%" ∧
           0 ≤ p ≤ 100 ∧
           match Math_round (num_mul (num_sub (number_of_positive 1) num_0_1)
                               (number_of_positive 100)) with
           | IInt r => p = Z.max 0 (Z.min 100 r)
           | INegZero => p = 0
           | IInf negative => p = if negative then 0 else 100
           | INaN => False
           end.
Proof.
  split; [reflexivity|].
  exact (proj1 (C9_confidence_percent num_0_1 eq_refl)).
Defined.

(** ** Rounding to nearest, on integers *)

Section Nearest.
Context (u : Z) (Hu : 0 < u).

Lemma rne_bounds (n : Z) : n / u ≤ rne n u ≤ n / u + 1.
Proof.
  unfold rne. destruct (_ ?= _); [destruct (Z.even _)| |]; lia.
Qed.

Lemma rne_exact (t : Z) : rne (t * u) u = t.
Proof.
  unfold rne. rewrite Z.mod_mul, Z.div_mul by lia.
  replace (2 * 0) with 0 by lia. destruct (Z.compare_spec 0 u); try lia.
Qed.

Lemma rne_mono (n n' : Z) : n ≤ n' → rne n u ≤ rne n' u.
Proof.
  intros Hn.
  pose proof (Z.div_le_mono n n' u Hu Hn) as Hq.
  pose proof (rne_bounds n) as Hb. pose proof (rne_bounds n') as Hb'.
  destruct (Z.eq_dec (n / u) (n' / u)) as [He|He]; [|lia].
  assert (Hr : n mod u ≤ n' mod u).
  { pose proof (Z.div_mod n u ltac:(lia)). pose proof (Z.div_mod n' u ltac:(lia)).
    rewrite He in *. nia. }
  unfold rne. rewrite He.
  destruct (Z.compare_spec (2 * (n mod u)) u), (Z.compare_spec (2 * (n' mod u)) u);
    try destruct (Z.even _); lia.
Qed.

Lemma rne_scale (n t : Z) : 0 < t → rne (n * t) (u * t) = rne n u.
Proof.
  intros Ht. unfold rne.
  rewrite Z.mul_mod_distr_r, Z.div_mul_cancel_r by lia.
  replace (2 * (n mod u * t)) with (2 * (n mod u) * t) by ring.
  rewrite <- (Zmult_compare_compat_r (2 * (n mod u)) u t) by lia. reflexivity.
Qed.

Lemma rne_nonneg (n : Z) : 0 ≤ n → 0 ≤ rne n u.
Proof.
  intros Hn. pose proof (rne_bounds n). pose proof (Z.div_pos n u Hn Hu). lia.
Qed.
End Nearest.

(** ** The nearest double is monotone *)

Lemma spacing_pos (n : Z) : 0 < spacing n.
Proof. unfold spacing. apply Z.pow_pos_nonneg; [lia|]. vm_compute emin. unfold scale. lia. Qed.

Lemma nearest_mono (n n' : Z) : 0 ≤ n → n ≤ n' → nearest n ≤ nearest n'.
Proof.
  intros H0 Hn. unfold nearest.
  pose proof (spacing_pos n) as Hu. pose proof (spacing_pos n') as Hu'.
  assert (Hg : 0 ≤ emin prec emax + scale) by (vm_compute; discriminate).
  pose proof (Z.log2_le_mono n n' Hn) as Hl.
  unfold spacing in *.
  set (g := emin prec emax + scale) in *.
  set (x := Z.max (Z.log2 n + 1 - prec) g) in *.
  set (x' := Z.max (Z.log2 n' + 1 - prec) g) in *.
  assert (Hx : 0 ≤ x ≤ x') by lia.
  destruct (Z.eq_dec x x') as [He|He].
  - rewrite <- He. apply Z.mul_le_mono_nonneg_l; [lia|].
    apply (rne_mono _ Hu), Hn.
  - assert (Hx' : x' = Z.log2 n' + 1 - prec) by lia.
    assert (Hn' : 0 < n').
    { destruct (Z.eq_dec n' 0) as [->|]; [|lia]. simpl in Hx'. unfold prec in *. lia. }
    (* the larger one is at least the power of two below it *)
    assert (Hlow : 2 ^ (prec - 1) ≤ rne n' (2 ^ x')).
    { rewrite <- (rne_exact (2 ^ x') Hu' (2 ^ (prec - 1))).
      apply (rne_mono _ Hu').
      rewrite <- Z.pow_add_r by (unfold prec; lia).
      replace (prec - 1 + x') with (Z.log2 n') by lia.
      apply Z.log2_spec, Hn'. }
    (* the smaller one is at most the power of two above it *)
    assert (Hhigh : rne n (2 ^ x) ≤ 2 ^ prec).
    { rewrite <- (rne_exact (2 ^ x) Hu (2 ^ prec)).
      apply (rne_mono _ Hu).
      rewrite <- Z.pow_add_r by (unfold prec; lia).
      destruct (Z.eq_dec n 0) as [->|Hn0].
      - apply Z.pow_nonneg. lia.
      - pose proof (Z.log2_spec n ltac:(lia)) as [_ Hs].
        etransitivity; [apply Z.lt_le_incl, Hs|].
        apply Z.pow_le_mono_r; lia. }
    transitivity (2 ^ x * 2 ^ prec); [apply Z.mul_le_mono_nonneg_l; lia|].
    transitivity (2 ^ x' * 2 ^ (prec - 1)); [|apply Z.mul_le_mono_nonneg_l; lia].
    rewrite <- !Z.pow_add_r by (unfold prec; lia).
    apply Z.pow_le_mono_r; lia.
Qed.

Lemma percent_at_mono (n n' : Z) : 0 ≤ n → n ≤ n' → percent_at n ≤ percent_at n'.
Proof.
  intros H0 Hn. unfold percent_at.
  apply Z.div_le_mono; [apply Z.pow_pos_nonneg; unfold scale; lia|].
  pose proof (nearest_mono (100 * n) (100 * n') ltac:(lia) ltac:(lia)). lia.
Qed.

Lemma percent_at_0 : percent_at 0 = 0.
Proof. vm_compute. reflexivity. Qed.

Lemma percent_at_1 : percent_at (2 ^ scale) = 100.
Proof. vm_compute. reflexivity. Qed.

(** ** The shifts of the Standard Library's rounding *)

Lemma shr_1_shifted (m u : Z) (mrs : shr_record) :
  0 < u → shifted m u mrs → shifted m (2 * u) (shr_1 mrs).
Proof.
  intros Hu (rem & Hm & Hrem & Hq & Hloc). destruct mrs as [q r s].
  cbn [shr_m shr_r shr_s] in *. unfold shifted.
  destruct q as [|[p|p|]|p]; cbn [shr_1 shr_m shr_r shr_s]; try lia.
  - exists rem. repeat split; try lia.
    destruct r, s; cbn [orb bits_locate] in *; lia.
  - exists (rem + u). repeat split; try lia.
    destruct r, s; cbn [orb bits_locate] in *; lia.
  - exists rem. repeat split; try lia.
    destruct r, s; cbn [orb bits_locate] in *; lia.
  - exists (rem + u). repeat split; try lia.
    destruct r, s; cbn [orb bits_locate] in *; lia.
Qed.

Lemma iter_shr_1_shifted (m : Z) (n : positive) :
  ∀ (u : Z) (mrs : shr_record),
    0 < u → shifted m u mrs →
    shifted m (u * 2 ^ Zpos n) (SpecFloat.iter_pos shr_1 n mrs).
Proof.
  induction n as [n IH|n IH|]; intros u mrs Hu Hs; cbn [SpecFloat.iter_pos].
  - replace (u * 2 ^ Zpos n~1) with (2 * u * 2 ^ Zpos n * 2 ^ Zpos n).
    + apply IH; [nia|]. apply IH; [lia|]. apply shr_1_shifted; assumption.
    + replace (Zpos n~1) with (Zpos n + Zpos n + 1) by lia.
      rewrite !Z.pow_add_r by lia. ring.
  - replace (u * 2 ^ Zpos n~0) with (u * 2 ^ Zpos n * 2 ^ Zpos n).
    + apply IH; [nia|]. apply IH; assumption.
    + replace (Zpos n~0) with (Zpos n + Zpos n) by lia.
      rewrite !Z.pow_add_r by lia. ring.
  - replace (u * 2 ^ 1) with (2 * u) by lia. apply shr_1_shifted; assumption.
Qed.

Lemma shifted_start (m : Z) : 0 ≤ m → shifted m 1 (shr_record_of_loc m loc_Exact).
Proof. intros H. exists 0. cbn. repeat split; lia. Qed.

(** Shifting an exact mantissa right by [n] bits. *)
Lemma shr_exact (m e n : Z) :
  0 ≤ m → 0 < n →
  ∃ mrs, shr (shr_record_of_loc m loc_Exact) e n = (mrs, e + n) ∧ shifted m (2 ^ n) mrs.
Proof.
  intros Hm Hn. destruct n as [|p|p]; try lia. cbn [shr].
  eexists. split; [reflexivity|].
  replace (2 ^ Zpos p) with (1 * 2 ^ Zpos p) by lia.
  apply iter_shr_1_shifted; [lia | apply shifted_start, Hm].
Qed.

Lemma shr_none (mrs : shr_record) (e n : Z) : n ≤ 0 → shr mrs e n = (mrs, e).
Proof. intros Hn. destruct n; [reflexivity | lia | reflexivity]. Qed.

(** What the round and sticky bits make of the shifted mantissa. *)
Lemma round_shifted (m u : Z) (mrs : shr_record) :
  0 < u → shifted m u mrs →
  round_nearest_even (shr_m mrs) (loc_of_shr_record mrs) = rne m u.
Proof.
  intros Hu (rem & Hm & Hrem & Hq & Hloc).
  assert (Hd : m / u = shr_m mrs).
  { symmetry. apply (Z.div_unique m u (shr_m mrs) rem); [lia | lia]. }
  assert (Hr : m mod u = rem).
  { symmetry. apply (Z.mod_unique m u (shr_m mrs) rem); [lia | lia]. }
  unfold rne. rewrite Hd, Hr. destruct mrs as [q r s].
  cbn [shr_m shr_r shr_s] in *.
  destruct r, s; cbn [loc_of_shr_record round_nearest_even bits_locate] in *;
    destruct (Z.compare_spec (2 * rem) u); try lia; reflexivity.
Qed.

(** ** Digits *)

Lemma digits2_pos_size (p : positive) : digits2_pos p = Pos.size p.
Proof. induction p as [p IH|p IH|]; simpl; congruence. Qed.

Lemma Zdigits2_log2 (m : Z) : 0 < m → Zdigits2 m = Z.log2 m + 1.
Proof.
  destruct m as [|p|p]; try lia. intros _. cbn [Zdigits2].
  rewrite digits2_pos_size. destruct p; simpl; lia.
Qed.

(** ** The value of a rounded product *)

(** The second shift of [binary_round_aux] only undoes a carry into bit
    [prec]; it never loses a bit. *)
Lemma renormalize (m1 c : Z) :
  0 ≤ m1 ≤ 2 ^ prec → emin prec emax ≤ c →
  ∃ mrs e2, shr_fexp prec emax m1 c loc_Exact = (mrs, e2) ∧
            0 ≤ shr_m mrs ∧ c ≤ e2 ≤ c + 1 ∧
            shr_m mrs * 2 ^ (e2 + scale) = m1 * 2 ^ (c + scale).
Proof.
  intros Hm Hc. unfold shr_fexp.
  assert (Hemin : emin prec emax = -1074) by reflexivity.
  destruct (Z.eq_dec m1 (2 ^ prec)) as [->|Hne].
  - change (2 ^ prec) with 9007199254740992.
    replace (fexp prec emax (Zdigits2 9007199254740992 + c) - c) with 1.
    + change (shr (shr_record_of_loc 9007199254740992 loc_Exact) c 1)
        with ({| shr_m := 4503599627370496; shr_r := false; shr_s := false |}, c + 1).
      eexists. eexists. split; [reflexivity|]. cbn [shr_m]. split; [lia|].
      split; [lia|].
      replace (c + 1 + scale) with (1 + (c + scale)) by lia.
      rewrite Z.pow_add_r by (unfold scale; lia). lia.
    + unfold fexp. change (Zdigits2 9007199254740992) with 54.
      rewrite Hemin in *. unfold prec. lia.
  - rewrite shr_none.
    + eexists. eexists. split; [reflexivity|]. cbn [shr_record_of_loc shr_m].
      repeat split; lia.
    + unfold fexp. rewrite Hemin in *. destruct (Z.eq_dec m1 0) as [->|Hm0].
      * cbn [Zdigits2]. unfold prec in *. lia.
      * rewrite Zdigits2_log2 by lia.
        assert (Z.log2 m1 < prec).
        { apply Z.log2_lt_pow2; lia. }
        lia.
Qed.

Lemma spacing_product (M E : Z) :
  0 < M → - scale ≤ E →
  spacing (M * 2 ^ (E + scale)) = 2 ^ (fexp prec emax (Zdigits2 M + E) + scale).
Proof.
  intros HM HE. unfold spacing. rewrite Z.log2_mul_pow2 by lia.
  rewrite Zdigits2_log2 by lia. unfold fexp. f_equal. lia.
Qed.

(** [binary_round_aux] on an exact positive mantissa returns the nearest
    double, as long as that is no overflow. *)
Lemma binary_round_aux_value (M E : Z) :
  0 < M → - scale ≤ E → E ≤ emax - prec → Z.log2 M + E + 2 ≤ emax →
  ∃ m2 e2,
    binary_round_aux prec emax false M E loc_Exact =
      match m2 with Zpos p => S754_finite false p e2 | _ => S754_zero false end ∧
    0 ≤ m2 ∧ emin prec emax ≤ e2 ∧
    m2 * 2 ^ (e2 + scale) = nearest (M * 2 ^ (E + scale)).
Proof.
  intros HM HE HE' Hov.
  assert (Hemin : emin prec emax = -1074) by reflexivity.
  pose proof (spacing_product M E HM HE) as Hsp.
  pose proof (Zdigits2_log2 M HM) as Hd.
  pose proof (Z.log2_nonneg M) as Hl.
  set (c := fexp prec emax (Zdigits2 M + E)) in *.
  assert (Hc : c = Z.max (Z.log2 M + 1 + E - prec) (-1074)).
  { unfold c, fexp. rewrite Hd, Hemin. reflexivity. }
  unfold nearest. rewrite Hsp. unfold binary_round_aux.
  destruct (Z_le_gt_dec (c - E) 0) as [Hn|Hn].
  - (* the mantissa is short enough: nothing is shifted out *)
    unfold shr_fexp. fold c. rewrite (shr_none _ E (c - E) Hn).
    cbn [shr_record_of_loc shr_m loc_of_shr_record round_nearest_even].
    fold c. rewrite (shr_none _ E (c - E) Hn). cbn [shr_m].
    exists M, E. destruct M as [|p|p]; try lia.
    assert (Hle : (E <=? emax - prec) = true) by (apply Z.leb_le; lia).
    rewrite Hle. split; [reflexivity|]. split; [lia|]. split; [lia|].
    replace (Zpos p * 2 ^ (E + scale))
      with (Zpos p * 2 ^ (E - c) * 2 ^ (c + scale)).
    + rewrite rne_exact by (apply Z.pow_pos_nonneg; unfold scale; lia). ring.
    + rewrite <- Z.mul_assoc, <- Z.pow_add_r by (unfold scale; lia).
      do 2 f_equal. lia.
  - (* [c - E] bits are shifted out and rounded *)
    destruct (shr_exact M E (c - E) ltac:(lia) ltac:(lia)) as (mrs & Hshr & Hshifted).
    assert (Hu : 0 < 2 ^ (c - E)) by (apply Z.pow_pos_nonneg; lia).
    unfold shr_fexp at 1. fold c. rewrite Hshr.
    rewrite (round_shifted M (2 ^ (c - E)) mrs Hu Hshifted).
    replace (E + (c - E)) with c by lia.
    assert (Hm1 : 0 ≤ rne M (2 ^ (c - E)) ≤ 2 ^ prec).
    { split; [apply rne_nonneg; lia|].
      rewrite <- (rne_exact (2 ^ (c - E)) Hu (2 ^ prec)).
      apply (rne_mono _ Hu).
      rewrite <- Z.pow_add_r by (unfold prec; lia).
      pose proof (Z.log2_spec M HM) as [_ Hs].
      etransitivity; [apply Z.lt_le_incl, Hs|].
      apply Z.pow_le_mono_r; unfold prec in *; lia. }
    destruct (renormalize _ c Hm1 ltac:(lia)) as (mrs2 & e2 & Hre & Hm2 & He2 & Hv).
    rewrite Hre. exists (shr_m mrs2), e2.
    assert (Hle : (e2 <=? emax - prec) = true).
    { apply Z.leb_le. unfold prec, emax in *. lia. }
    split; [destruct (shr_m mrs2); [reflexivity | rewrite Hle; reflexivity | lia]|].
    split; [exact Hm2|]. split; [lia|].
    rewrite Hv.
    replace (2 ^ (c + scale)) with (2 ^ (c - E) * 2 ^ (E + scale)).
    + rewrite rne_scale by (try apply Z.pow_pos_nonneg; unfold scale in *; lia). ring.
    + rewrite <- Z.pow_add_r by (unfold scale in *; lia). f_equal. lia.
Qed.

(** ** Math.round on exact values *)

Lemma round_half_up_scaled (v e : Z) :
  emin prec emax ≤ e →
  round_half_up v e = (v * 2 ^ (e + scale) + 2 ^ (scale - 1)) / 2 ^ scale.
Proof.
  intros He. assert (Hemin : emin prec emax = -1074) by reflexivity.
  rewrite Hemin in He. unfold round_half_up.
  assert (Hs : 0 < 2 ^ scale) by (apply Z.pow_pos_nonneg; unfold scale; lia).
  destruct (0 <=? e) eqn:E0.
  - apply Z.leb_le in E0.
    rewrite Z.pow_add_r by (unfold scale; lia).
    rewrite Z.mul_assoc, Z.div_add_l by lia.
    rewrite Z.div_small; [lia|]. split; [apply Z.pow_nonneg; lia|].
    apply Z.pow_lt_mono_r; unfold scale; lia.
  - apply Z.leb_gt in E0.
    assert (Ht : 0 < 2 ^ (scale + e - 1)) by (apply Z.pow_pos_nonneg; unfold scale; lia).
    rewrite <- (Z.div_mul_cancel_r (2 * v + 2 ^ (- e)) (2 ^ (- e + 1)) (2 ^ (scale + e - 1)))
      by lia.
    f_equal.
    + rewrite Z.mul_add_distr_r, <- Z.pow_add_r by (unfold scale; lia).
      replace (- e + (scale + e - 1)) with (scale - 1) by lia.
      replace (e + scale) with (1 + (scale + e - 1)) by lia.
      rewrite (Z.pow_add_r 2 1) by (unfold scale; lia). lia.
    + rewrite <- Z.pow_add_r by (unfold scale; lia). f_equal. lia.
Qed.

(** ** Well-formed numbers and their order *)

Lemma well_formed_finite (s : bool) (m : positive) (e : Z) :
  well_formed (S754_finite s m e) = true →
  -1074 ≤ e ≤ 971 ∧ Z.log2 (Zpos m) ≤ 52 ∧ (-1074 < e → Z.log2 (Zpos m) = 52).
Proof.
  unfold well_formed, valid_binary, bounded, canonical_mantissa.
  intros H. apply andb_prop in H as [Hc He].
  apply Z.eqb_eq in Hc. apply Z.leb_le in He.
  change (Zpos (digits2_pos m)) with (Zdigits2 (Zpos m)) in Hc.
  rewrite Zdigits2_log2 in Hc by lia.
  unfold fexp in Hc. change (emin prec emax) with (-1074) in Hc.
  unfold prec, emax in *. lia.
Qed.

Lemma scaled_finite_bounds (m : positive) (e : Z) :
  well_formed (S754_finite false m e) = true →
  2 ^ (Z.log2 (Zpos m) + e + scale) ≤ scaled (S754_finite false m e)
  < 2 ^ (Z.log2 (Zpos m) + 1 + e + scale).
Proof.
  intros H. apply well_formed_finite in H as (He & _ & _).
  cbn [scaled cond_Zopp]. pose proof (Z.log2_nonneg (Zpos m)) as Hl.
  pose proof (Z.log2_spec (Zpos m) ltac:(lia)) as [Hlo Hhi].
  assert (Ht : 0 < 2 ^ (e + scale)) by (apply Z.pow_pos_nonneg; unfold scale; lia).
  replace (Z.log2 (Zpos m) + e + scale) with (Z.log2 (Zpos m) + (e + scale)) by lia.
  replace (Z.log2 (Zpos m) + 1 + e + scale) with (Z.succ (Z.log2 (Zpos m)) + (e + scale)) by lia.
  rewrite (Z.pow_add_r 2 (Z.log2 (Zpos m)) (e + scale)),
    (Z.pow_add_r 2 (Z.succ (Z.log2 (Zpos m))) (e + scale)) by (unfold scale; lia).
  nia.
Qed.

(** On well-formed numbers that are not negative, [<=] is the order of the values. *)
Lemma scaled_mono (p q : number) :
  in_unit_interval p → in_unit_interval q →
  num_leb p q = true → scaled p ≤ scaled q.
Proof.
  intros (Hwp & Hp0 & Hp1) (Hwq & Hq0 & Hq1) Hle.
  destruct p as [sp|sp| |sp mp ep], q as [sq|sq| |sq mq eq_]; try discriminate;
    try (destruct sp; discriminate); try (destruct sq; discriminate).
  - destruct sq; [discriminate|]. cbn [scaled cond_Zopp].
    pose proof (well_formed_finite _ _ _ Hwq).
    assert (0 < 2 ^ (eq_ + scale)) by (apply Z.pow_pos_nonneg; unfold scale; lia). nia.
  - destruct sp; [discriminate|]. destruct sq; [discriminate|].
    pose proof (well_formed_finite _ _ _ Hwp) as (Hep & Hlp & Hnp).
    pose proof (well_formed_finite _ _ _ Hwq) as (Heq & Hlq & Hnq).
    pose proof (scaled_finite_bounds _ _ Hwp) as [_ Hhi].
    pose proof (scaled_finite_bounds _ _ Hwq) as [Hlo _].
    unfold num_leb, SFleb, SFcompare in Hle.
    destruct (Z.compare_spec ep eq_) as [->|Hlt|Hgt]; try discriminate.
    + cbn [scaled cond_Zopp].
      assert (Hm : (mp <= mq)%positive).
      { unfold Pos.le. change (mp ?= mq)%positive with (Pos.compare_cont Eq mp mq).
        destruct (Pos.compare_cont Eq mp mq); discriminate. }
      assert (0 < 2 ^ (eq_ + scale)) by (apply Z.pow_pos_nonneg; unfold scale; lia).
      nia.
    + assert (Z.log2 (Zpos mp) + 1 + ep + scale ≤ Z.log2 (Zpos mq) + eq_ + scale) by lia.
      pose proof (Z.pow_le_mono_r 2 _ _ ltac:(lia) H). lia.
Qed.

Lemma scaled_unit (p : number) : in_unit_interval p → 0 ≤ scaled p ≤ 2 ^ scale.
Proof.
  intros Hp.
  assert (H1 : in_unit_interval num_1) by (repeat split).
  pose proof (scaled_mono p num_1 Hp H1 (proj2 (proj2 Hp))) as Hle.
  change (scaled num_1) with (4503599627370496 * 2 ^ (-52 + scale)) in Hle.
  split.
  - destruct Hp as (Hw & H0 & _).
    destruct p as [sp|sp| |sp mp ep]; cbn [scaled]; try lia.
    destruct sp; [discriminate|]. cbn [cond_Zopp].
    pose proof (well_formed_finite _ _ _ Hw).
    assert (0 < 2 ^ (ep + scale)) by (apply Z.pow_pos_nonneg; unfold scale; lia). nia.
  - replace (2 ^ scale) with (4503599627370496 * 2 ^ (-52 + scale));
      [exact Hle | vm_compute; reflexivity].
Qed.

(** ** The percentage of a progress *)

(** For a progress in [0,1], [Math.round(progress * 100)] is the integer
    nearest (ties up) to the double nearest to 100 times the progress. *)
Lemma progress_percent (p : number) :
  in_unit_interval p →
  to_Z (Math_round (num_mul p (number_of_positive 100))) = Some (percent_at (scaled p)).
Proof.
  intros Hp. pose proof (scaled_unit p Hp) as Hunit.
  destruct Hp as (Hw & H0 & H1). rewrite number_of_positive_100.
  destruct p as [s|s| |s m e]; try discriminate.
  - change (scaled (S754_zero s)) with 0. rewrite percent_at_0.
    destruct s; reflexivity.
  - destruct s; discriminate.
  - destruct s; [discriminate|].
    pose proof (well_formed_finite _ _ _ Hw) as (He & Hl & _).
    assert (He' : e ≤ -52).
    { unfold num_leb, SFleb, SFcompare in H1.
      change num_1 with (S754_finite false 4503599627370496 (-52)) in H1.
      cbv iota beta in H1.
      destruct (Z.compare_spec e (-52)); try lia; discriminate. }
    unfold num_mul, SFmul. cbn [xorb].
    set (M := Zpos (m * 7036874417766400)).
    assert (HM : M = Zpos m * (100 * 2 ^ 46)) by (unfold M; lia).
    assert (Hlog : Z.log2 M ≤ 105).
    { rewrite HM. pose proof (Z.log2_mul_above (Zpos m) (100 * 2 ^ 46)
                                ltac:(lia) ltac:(lia)) as Ha.
      change (Z.log2 (100 * 2 ^ 46)) with 52 in Ha. lia. }
    assert (C1 : 0 < M) by (unfold M; lia).
    assert (C2 : - scale ≤ e + -46) by (unfold scale; lia).
    assert (C3 : e + -46 ≤ emax - prec) by (unfold emax, prec; lia).
    assert (C4 : Z.log2 M + (e + -46) + 2 ≤ emax) by (unfold emax; lia).
    destruct (binary_round_aux_value M (e + -46) C1 C2 C3 C4)
      as (m2 & e2 & Hr & Hm2 & He2 & Hv).
    rewrite Hr.
    assert (Hn : nearest (100 * scaled (S754_finite false m e)) = m2 * 2 ^ (e2 + scale)).
    { rewrite Hv. f_equal. cbn [scaled cond_Zopp]. rewrite HM.
      replace (e + scale) with (46 + (e + -46 + scale)) by lia.
      rewrite (Z.pow_add_r 2 46) by (unfold scale; lia). ring. }
    unfold percent_at. rewrite Hn.
    destruct m2 as [|p2|p2]; [| |lia].
    + cbn [Math_round to_Z]. apply f_equal. symmetry. apply Z.div_small.
      split; [apply Z.pow_nonneg; lia|]. apply Z.pow_lt_mono_r; unfold scale; lia.
    + cbn [Math_round cond_Zopp]. rewrite andb_false_r. cbn [to_Z]. apply f_equal.
      apply round_half_up_scaled, He2.
Qed.

Lemma percent_at_bounds (n : Z) : 0 ≤ n ≤ 2 ^ scale → 0 ≤ percent_at n ≤ 100.
Proof.
  intros [H0 H1].
  pose proof (percent_at_mono 0 n ltac:(lia) H0) as Ha.
  pose proof (percent_at_mono n (2 ^ scale) H0 H1) as Hb.
  rewrite percent_at_0 in Ha. rewrite percent_at_1 in Hb. lia.
Qed.

Example percent_at_half : percent_at (scaled num_0_5) = 50.
Proof. vm_compute. reflexivity. Qed.

(** ** Published progress (C7) *)

Lemma logger_cases (m : LogMessage) (w : World) :
  exec (logger m) w =
  match recognition_progress m with
  | Some p => exec (setOcrProgress (Math_round (num_mul p (number_of_positive 100)))) w
  | None => w
  end.
Proof.
  unfold logger, recognition_progress.
  destruct (status m), (progress m); try reflexivity.
  case (decide _); reflexivity.
Qed.

Lemma logger_other_stage (m : LogMessage) (w : World) :
  status m ≠ JString (lit "recognizing text") → exec (logger m) w = w.
Proof.
  intros Hs. rewrite logger_cases. unfold recognition_progress.
  destruct (status m), (progress m); try reflexivity.
  case (decide _); [intros ->; congruence | reflexivity].
Qed.

Lemma observe_logs (ms : list LogMessage) :
  ∀ (w : World) (n0 : Z),
    workerRef w ≠ None → 0 ≤ n0 ≤ 2 ^ scale →
    to_Z (ocrProgress (ui w)) = Some (percent_at n0) →
    Forall in_unit_interval (omap recognition_progress ms) →
    Sorted (λ p q, num_leb p q = true) (omap recognition_progress ms) →
    (∀ p, head (omap recognition_progress ms) = Some p → n0 ≤ scaled p) →
    ∃ zs, map to_Z (observe (λ w, ocrProgress (ui w)) w (map Log ms)) = map Some zs ∧
          length zs = length ms ∧
          Sorted Z.le (percent_at n0 :: zs) ∧
          Forall (λ z, percent_at n0 ≤ z ≤ 100) zs.
Proof.
  induction ms as [|m ms IH]; intros w n0 Hw Hn0 Hcur Hall Hsorted Hhead.
  - exists []. repeat split; constructor; constructor.
  - assert (Hstep : step w (Log m) = Some (exec (logger m) w)).
    { unfold step. destruct (workerRef w); [reflexivity | congruence]. }
    cbn [map observe]. rewrite Hstep, logger_cases.
    cbn [omap list_omap] in Hall, Hsorted, Hhead.
    pose proof (percent_at_bounds n0 Hn0) as Hb0.
    destruct (recognition_progress m) as [p|].
    + apply Forall_cons_1 in Hall as [Hp Hall].
      apply Sorted_inv in Hsorted as [Hsorted Hhd].
      pose proof (scaled_unit p Hp) as Hsp.
      pose proof (Hhead p eq_refl) as Hn0p.
      set (w1 := exec (setOcrProgress _) w).
      assert (Hw1 : workerRef w1 ≠ None) by (unfold w1; msimpl; congruence).
      assert (Hcur1 : to_Z (ocrProgress (ui w1)) = Some (percent_at (scaled p))).
      { unfold w1. msimpl. apply progress_percent, Hp. }
      destruct (IH w1 (scaled p) Hw1 Hsp Hcur1 Hall Hsorted) as (zs & Hz & Hlen & Hs & Hf).
      { intros q Hq. destruct (omap recognition_progress ms) as [|q' ps]; [discriminate|].
        injection Hq as ->. apply Forall_cons_1 in Hall as [Hq' _].
        apply HdRel_inv in Hhd. exact (scaled_mono p q Hp Hq' Hhd). }
      pose proof (percent_at_mono n0 (scaled p) ltac:(lia) Hn0p) as Hm.
      pose proof (percent_at_bounds (scaled p) Hsp) as Hbp.
      exists (percent_at (scaled p) :: zs). cbn [map length]. rewrite Hcur1, Hz, Hlen.
      repeat split.
      * constructor; [exact Hs | constructor; exact Hm].
      * constructor; [lia|]. eapply List.Forall_impl; [|exact Hf]. cbv beta. lia.
    + destruct (IH w n0 Hw Hn0 Hcur Hall Hsorted Hhead) as (zs & Hz & Hlen & Hs & Hf).
      exists (percent_at n0 :: zs). cbn [map length]. rewrite Hcur, Hz, Hlen.
      repeat split.
      * constructor; [exact Hs | constructor; lia].
      * constructor; [lia | exact Hf].
Qed.

(** C7. Take a job, started by a capture or by an upload, and the
    notifications the engine sends while it runs, the recognition progress
    among them staying in [0,1] and never going down (the engine's
    contract).  The progress published after the start and after each
    notification is an integer between 0 and 100 and never goes down.
    A notification of another stage changes nothing at all; a notification
    of the recognition stage with a number [p] publishes
    [Math.round(p * 100)], which for [p] in [0,1] is the integer nearest
    to the double nearest to [100 p]. *)
Theorem C7_progress_published
    (w : World) (ev : event) (img : jsstring) (ms : list LogMessage) :
  workerRef w ≠ None → starts w ev img →
  engine_contract ms →
  (∃ zs,
      map to_Z (observe (λ w, ocrProgress (ui w)) w (ev :: map Log ms)) = map Some zs ∧
      length zs = S (length ms) ∧
      Sorted Z.le zs ∧
      Forall (λ z, 0 ≤ z ≤ 100) zs) ∧
  (∀ w0 m, status m ≠ JString (lit "recognizing text") → exec (logger m) w0 = w0) ∧
  (∀ w0 p, ocrProgress (ui (exec (logger (recognizing p)) w0))
           = Math_round (num_mul p (number_of_positive 100))) ∧
  (∀ p, in_unit_interval p →
        to_Z (Math_round (num_mul p (number_of_positive 100)))
        = Some (percent_at (scaled p))).
Proof.
  intros Hw Hev [Hall Hsorted].
  split; [|split; [|split]].
  - destruct (step_starts w ev img Hw Hev) as (w0 & H0 & Hui & Hr0 & _).
    destruct (observe_logs ms w0 0) as (zs & Hz & Hlen & Hs & Hf); try assumption.
    + congruence.
    + split; [lia | apply Z.pow_nonneg; lia].
    + rewrite Hui, percent_at_0. reflexivity.
    + intros p Hhd. apply scaled_unit.
      destruct (omap recognition_progress ms) as [|q ps]; [discriminate|].
      injection Hhd as ->. apply Forall_cons_1 in Hall as [Hq _]. exact Hq.
    + rewrite percent_at_0 in Hs, Hf.
      exists (0 :: zs). cbn [observe]. rewrite H0. cbn [map length].
      rewrite Hui, Hz, Hlen. repeat split; [exact Hs|].
      constructor; [lia | exact Hf].
  - intros w0 m. apply logger_other_stage.
  - intros w0 p. rewrite logger_cases. reflexivity.
  - apply progress_percent.
Qed.

Lemma C7_progress_published_witness :
  starts (world_after engine_ready) (ClickCapture (Some jpeg1)) jpeg1 ∧
  engine_contract sample_log ∧
  ∃ zs, map to_Z (observe (λ w, ocrProgress (ui w)) (world_after engine_ready)
                    (ClickCapture (Some jpeg1) :: map Log sample_log)) = map Some zs ∧
        length zs = S (length sample_log) ∧
        Sorted Z.le zs ∧
        Forall (λ z, 0 ≤ z ≤ 100) zs.
Proof.
  assert (Hs : starts (world_after engine_ready) (ClickCapture (Some jpeg1)) jpeg1).
  { left. split; [reflexivity|]. split; [vm_compute; discriminate|].
    split; [vm_compute; reflexivity | vm_compute; discriminate]. }
  assert (Hc : engine_contract sample_log).
  { split; repeat constructor. }
  split; [exact Hs|]. split; [exact Hc|].
  exact (proj1 (C7_progress_published (world_after engine_ready)
                  (ClickCapture (Some jpeg1)) jpeg1 sample_log
                  ltac:(vm_compute; discriminate) Hs Hc)).
Defined.

(* ===================================================================== *)
(** * Further properties of the component *)
(* ===================================================================== *)

(** ** Whole jobs *)

Lemma step_fetch_ok (w : World) (k : nat) :
  pending w !! k = Some AtFetch →
  step w (Settle k (Fetched (Resolved true))) =
  Some {| ui := ui w;
          workerRef := workerRef w;
          pending := <[k := AtResJson]> (delete k (pending w));
          next_id := next_id w;
          calls := calls w ++ [ResJson k];
          uncaught := uncaught w; phase := phase w |}.
Proof.
  intros Hk. unfold step. rewrite Hk. reflexivity.
Qed.


Lemma filter_snoc (f : call → bool) (l : list call) (c : call) :
  List.filter f (l ++ [c]) = if f c then List.filter f l ++ [c] else List.filter f l.
Proof.
  rewrite List.filter_app. simpl. destruct (f c); [reflexivity | apply app_nil_r].
Qed.

(** A job from its trigger to the recognition result, with the
    notifications in between: where it stands when the fetch is out. *)
Lemma run_to_fetch
    (w : World) (ev : event) (img : jsstring) (r : RecognizeResult)
    (ms1 ms2 : list LogMessage) :
  workerRef w ≠ None → starts w ev img → recognized_text r ≠ [] →
  ∃ w2, run w (ev :: map Log ms1
                ++ Settle (job_of w ev) (Recognized (Resolved r)) :: map Log ms2) = Some w2 ∧
        imageSrc (ui w2) = Some img ∧ ocrText (ui w2) = recognized_text r ∧
        loadingOcr (ui w2) = false ∧ matches (ui w2) = [] ∧ warning (ui w2) = None ∧
        workerRef w2 = workerRef w ∧ uncaught w2 = uncaught w ∧
        pending w2 !! job_of w ev = Some AtFetch ∧
        calls w2 = calls w ++ [Recognize (job_of w ev) img;
                               Fetch (job_of w ev) BACKEND_SEARCH_ENDPOINT (recognized_text r)].
Proof.
  intros Hw Hev Hr.
  destruct (step_starts w ev img Hw Hev) as (w0 & H0 & Hui0 & Hr0 & Hk0 & Hc0 & Hu0).
  destruct (run_logs ms1 w0 ltac:(congruence)) as (w1 & Hrun1 & Hs1).
  destruct Hs1 as (Hi1 & _ & _ & _ & _ & _ & Hr1 & Hp1 & _ & Hc1 & Hu1 & _).
  assert (Hk1 : pending w1 !! job_of w ev = Some AtRecognize) by congruence.
  pose proof (step_recognized w1 (job_of w ev) r Hk1 Hr) as H2.
  set (w2 := {| ui := _ |}) in H2.
  assert (Hw2 : workerRef w2 ≠ None) by (unfold w2; psimpl; congruence).
  destruct (run_logs ms2 w2 Hw2) as (w3 & Hrun3 & Hs3).
  destruct Hs3 as (Hi3 & Ht3 & Hm3 & Hwn3 & Hl3 & _ & Hr3 & Hp3 & _ & Hc3 & Hu3 & _).
  unfold w2 in Hi3, Ht3, Hm3, Hwn3, Hl3, Hr3, Hp3, Hc3, Hu3. psimpl_all.
  exists w3. split.
  - rewrite (run_step _ _ _ _ H0), (run_then _ _ _ _ Hrun1), (run_step _ _ _ _ H2).
    exact Hrun3.
  - rewrite Hi3, Ht3, Hm3, Hwn3, Hl3, Hr3, Hp3, Hc3, Hu3, Hi1, Hui0, Hr1, Hc1, Hc0, Hu1, Hu0.
    psimpl. rewrite <- app_assoc. repeat split; try congruence.
    apply lookup_insert_eq.
Qed.

(** ... and on to the ok response, with the body still to be parsed. *)
Lemma run_to_json
    (w : World) (ev : event) (img : jsstring) (r : RecognizeResult)
    (ms1 ms2 ms3 : list LogMessage) :
  workerRef w ≠ None → starts w ev img → recognized_text r ≠ [] →
  ∃ w4, (∀ rest, run w (ev :: map Log ms1
                   ++ Settle (job_of w ev) (Recognized (Resolved r)) :: map Log ms2
                   ++ Settle (job_of w ev) (Fetched (Resolved true)) :: map Log ms3
                   ++ rest) = run w4 rest) ∧
        imageSrc (ui w4) = Some img ∧ ocrText (ui w4) = recognized_text r ∧
        loadingOcr (ui w4) = false ∧ matches (ui w4) = [] ∧ warning (ui w4) = None ∧
        uncaught w4 = uncaught w ∧
        pending w4 !! job_of w ev = Some AtResJson ∧
        calls w4 = calls w ++ [Recognize (job_of w ev) img;
                               Fetch (job_of w ev) BACKEND_SEARCH_ENDPOINT (recognized_text r);
                               ResJson (job_of w ev)].
Proof.
  intros Hw Hev Hr. set (k := job_of w ev).
  destruct (run_to_fetch w ev img r ms1 ms2 Hw Hev Hr)
    as (w2 & Hrun2 & Hi2 & Ht2 & Hl2 & Hm2 & Hwn2 & Hr2 & Hu2 & Hk2 & Hc2).
  fold k in Hrun2, Hk2, Hc2.
  pose proof (step_fetch_ok w2 k Hk2) as H3. set (w3 := {| ui := _ |}) in H3.
  assert (Hw3 : workerRef w3 ≠ None) by (unfold w3; psimpl; congruence).
  destruct (run_logs ms3 w3 Hw3) as (w4 & Hrun4 & Hs4).
  destruct Hs4 as (Hi4 & Ht4 & Hm4 & Hwn4 & Hl4 & _ & _ & Hp4 & _ & Hc4 & Hu4 & _).
  unfold w3 in Hi4, Ht4, Hm4, Hwn4, Hl4, Hp4, Hc4, Hu4. psimpl_all.
  exists w4. split.
  - intros rest.
    match goal with |- run w (ev :: ?a ++ ?s1 :: ?b ++ ?s2 :: ?c ++ rest) = _ =>
      replace (ev :: a ++ s1 :: b ++ s2 :: c ++ rest)
        with ((ev :: a ++ s1 :: b) ++ s2 :: c ++ rest)
        by (cbn [app]; rewrite <- app_assoc; reflexivity)
    end.
    rewrite (run_then _ _ _ _ Hrun2), (run_step _ _ _ _ H3). apply run_then, Hrun4.
  - rewrite Hi4, Ht4, Hl4, Hm4, Hwn4, Hc4, Hu4, Hp4, Hc2, <- app_assoc.
    repeat split; try assumption. apply lookup_insert_eq.
Qed.

(** X1. The happy path, end to end.  A job started by a capture or an upload,
    whose recognition yields a text that is not blank and whose search is
    answered by an ok response with a parsable body, ends with the
    preview, the trimmed text, the body's matches and its non-empty
    warning published and the loading flag down; the engine was asked
    once, the catalog once, with the trimmed text, and nothing is left
    parked or uncaught.  Progress notifications may arrive at any point. *)
Theorem job_runs_to_done
    (w : World) (ev : event) (img : jsstring) (r : RecognizeResult) (d : CatalogData)
    (ms1 ms2 ms3 : list LogMessage) :
  workerRef w ≠ None → starts w ev img → recognized_text r ≠ [] →
  ∃ w', run w (ev :: map Log ms1
                ++ Settle (job_of w ev) (Recognized (Resolved r)) :: map Log ms2
                ++ Settle (job_of w ev) (Fetched (Resolved true)) :: map Log ms3
                ++ [Settle (job_of w ev) (BodyJson (Resolved (Some d)))]) = Some w' ∧
        job_done w w' (job_of w ev) img (recognized_text r) d.
Proof.
  intros Hw Hev Hr. set (k := job_of w ev).
  destruct (run_to_json w ev img r ms1 ms2 ms3 Hw Hev Hr)
    as (w4 & Hrun4 & Hi4 & Ht4 & Hl4 & Hm4 & Hwn4 & Hu4 & Hk4 & Hc4).
  fold k in Hrun4, Hk4, Hc4.
  pose proof (step_parsed w4 k d Hk4) as H5. set (w5 := {| ui := _ |}) in H5.
  exists w5. split; [rewrite Hrun4, run_one; exact H5|].
  unfold job_done, w5. psimpl. rewrite Hwn4, Hc4.
  rewrite !List.filter_app. cbn [List.filter is_recognize is_fetch].
  rewrite ?app_nil_r. unfold passed_warning.
  repeat split; try assumption. apply lookup_delete_eq.
Qed.

Lemma job_runs_to_done_witness :
  starts (world_after engine_ready) (ClickCapture (Some jpeg1)) jpeg1 ∧
  ∃ w', run (world_after engine_ready)
          (ClickCapture (Some jpeg1) :: map Log sample_log
           ++ Settle 1 (Recognized (Resolved (page "  PARACETAMOL 500mg "))) :: map Log []
           ++ Settle 1 (Fetched (Resolved true)) :: map Log []
           ++ [Settle 1 (body (Some [paracetamol]) None)]) = Some w' ∧
        job_done (world_after engine_ready) w' 1 jpeg1 (lit "PARACETAMOL 500mg")
          {| data_matches := Some [paracetamol]; data_warning := None |}.
Proof.
  assert (Hs : starts (world_after engine_ready) (ClickCapture (Some jpeg1)) jpeg1).
  { left. split; [reflexivity|]. split; [vm_compute; discriminate|].
    split; [vm_compute; reflexivity | vm_compute; discriminate]. }
  split; [exact Hs|].
  exact (job_runs_to_done (world_after engine_ready) (ClickCapture (Some jpeg1)) jpeg1
           (page "  PARACETAMOL 500mg ")
           {| data_matches := Some [paracetamol]; data_warning := None |}
           sample_log [] [] ltac:(vm_compute; discriminate) Hs
           ltac:(vm_compute; discriminate)).
Defined.



(** ** Invariants of all runs *)

Lemma run_invariant (P : World → Prop) :
  (∀ w ev w', P w → step w ev = Some w' → P w') →
  ∀ evs w w', P w → run w evs = Some w' → P w'.
Proof.
  intros Hstep. induction evs as [|ev evs IH]; intros w w' Hw; simpl.
  - intros [= <-]. exact Hw.
  - destruct (step w ev) as [w1|] eqn:E; [|discriminate].
    apply IH. exact (Hstep w ev w1 Hw E).
Qed.

Lemma reachable_invariant (P : World → Prop) :
  P initial_world →
  (∀ w ev w', P w → step w ev = Some w' → P w') →
  ∀ w, reachable w → P w.
Proof.
  intros H0 Hstep w [evs Hrun]. exact (run_invariant P Hstep evs _ _ H0 Hrun).
Qed.

Lemma reachable_step (w w' : World) (ev : event) :
  reachable w → step w ev = Some w' → reachable w'.
Proof.
  intros [evs Hrun] Hstep. exists (evs ++ [ev]).
  rewrite (run_then _ _ _ _ Hrun), run_one. exact Hstep.
Qed.

Lemma reachable_run (w w' : World) (evs : list event) :
  reachable w → run w evs = Some w' → reachable w'.
Proof.
  intros Hw. apply (run_invariant reachable); [|exact Hw].
  intros w0 ev w1. apply reachable_step.
Qed.

(** Opens a step: one goal for each event that can happen and each place
    its activation can be parked at, with the handler still folded. *)
Ltac open_step H :=
  unfold step in H;
  repeat match type of H with
         | match ?x with _ => _ end = Some _ => destruct x eqn:?; try discriminate H
         end;
  try match goal with
      | Hc : continue _ ?a ?s = Some _ |- _ =>
          destruct a, s; cbn [continue] in Hc; try discriminate Hc;
          injection Hc as <-
      end;
  injection H as <-.

(** Opens a step and runs its handler along each of its branches. *)
Ltac run_step H := open_step H; unfold_handlers; msimpl; split_handler.

Ltac solve_lookup :=
  repeat match goal with
         | H : (<[?k := _]> _) !! ?k' = Some _ |- _ =>
             destruct (decide (k = k')) as [?|?];
             [subst; rewrite lookup_insert_eq in H | rewrite lookup_insert_ne in H by assumption]
         | H : (delete ?k _) !! ?k' = Some _ |- _ =>
             destruct (decide (k = k')) as [?|?];
             [subst; rewrite lookup_delete_eq in H; discriminate H
             | rewrite lookup_delete_ne in H by assumption]
         end.

Lemma fresh_ids_step (w : World) (ev : event) (w' : World) :
  fresh_ids w → step w ev = Some w' → fresh_ids w'.
Proof.
  intros Hf Hstep. unfold fresh_ids in *.
  run_step Hstep; intros k' at' Hk'; solve_lookup;
    try (specialize (Hf _ _ Hk')); try lia;
    match goal with H : pending w !! _ = Some _ |- _ => specialize (Hf _ _ H); lia end.
Qed.

Lemma reachable_fresh_ids (w : World) : reachable w → fresh_ids w.
Proof.
  apply reachable_invariant; [|exact fresh_ids_step].
  intros k at_ H. change ((∅ : gmap nat suspended) !! k = Some at_) in H.
  rewrite lookup_empty in H. discriminate.
Qed.

(** ** The initialization of the engine *)

Lemma init_frame_at (w w' : World) (st : init_progress) :
  init_frame w w' → init_at w st → init_at w' st.
Proof.
  intros (Hp & Hr & Hc & Hy & Hu & He).
  assert (Hno : no_init_parked w → no_init_parked w').
  { intros Hn k at_ Hk. destruct (init_stage at_) eqn:Ei; [|reflexivity].
    apply (He k at_ Ei) in Hk. rewrite (Hn k at_ Hk) in Ei. discriminate. }
  assert (Hpk : ∀ k at_, init_stage at_ = true → init_parked w k at_ → init_parked w' k at_).
  { intros k at_ Ei [Hk Huniq]. split; [apply (He k at_ Ei), Hk|].
    intros k' at' Hk' Ei'. apply (Huniq k' at'); [apply (He k' at' Ei'), Hk' | exact Ei']. }
  destruct st as [|k at_| |k]; cbn [init_at]; rewrite Hr, Hc, Hy, Hu, Hp; intuition.
Qed.

Ltac filter_calls :=
  unfold worker_calls; psimpl; rewrite ?List.filter_app;
  cbn [List.filter is_worker_call is_terminate is_fetch is_recognize app];
  rewrite ?app_nil_r.

(** Every step but the mount and the settlements of [initWorker]'s own
    awaits leaves the initialization alone. *)
Lemma step_init_frame (w : World) (ev : event) (w' : World) :
  fresh_ids w → step w ev = Some w' →
  ev ≠ Mount →
  (∀ k s at_, ev = Settle k s → pending w !! k = Some at_ → init_stage at_ = false) →
  init_frame w w'.
Proof.
  intros Hf Hstep Hm Hs. unfold init_frame.
  destruct ev as [| |m|shot|files|k s]; [congruence| | | | |].
  5: specialize (Hs k s).
  all: run_step Hstep.
  all: try (specialize (Hs _ eq_refl eq_refl); discriminate Hs).
  all: repeat split; try tauto; try congruence; try (filter_calls; reflexivity).
  all: intros Hx;
    repeat match goal with
           | |- context [<[?i := _]> _ !! ?j] =>
               destruct (decide (i = j));
               [subst; rewrite lookup_insert_eq | rewrite lookup_insert_ne by assumption]
           | |- context [delete ?i _ !! ?j] =>
               destruct (decide (i = j));
               [subst; rewrite lookup_delete_eq | rewrite lookup_delete_ne by assumption]
           end;
    solve_lookup; try assumption; try congruence;
    try match goal with H : pending _ !! next_id _ = Some _ |- _ => apply Hf in H; lia end;
    try (exfalso; simplify_eq; cbn [init_stage] in *; congruence).
Qed.

Lemma init_parked_insert (w w' : World) (k : nat) (at_ at' : suspended) :
  init_parked w k at_ →
  pending w' = <[k := at']> (delete k (pending w)) →
  init_parked w' k at'.
Proof.
  intros [Hk Hu] Hp. split; [rewrite Hp; apply lookup_insert_eq|].
  intros k' a Hk' Hi. destruct (decide (k = k')) as [|Hne]; [congruence|].
  rewrite Hp, lookup_insert_ne, lookup_delete_ne in Hk' by assumption.
  exact (Hu k' a Hk' Hi).
Qed.

Lemma init_parked_delete (w w' : World) (k : nat) (at_ : suspended) :
  init_parked w k at_ →
  pending w' = delete k (pending w) →
  no_init_parked w'.
Proof.
  intros [Hk Hu] Hp k' a Hk'. rewrite Hp in Hk'.
  destruct (decide (k = k')) as [->|Hne]; [rewrite lookup_delete_eq in Hk'; discriminate|].
  rewrite lookup_delete_ne in Hk' by assumption.
  destruct (init_stage a) eqn:Ei; [|reflexivity].
  specialize (Hu k' a Hk' Ei). congruence.
Qed.

(** The stage [initWorker] is at decides what is parked at its awaits. *)
Lemma init_at_parked (w : World) (st : init_progress) (k : nat) (at_ : suspended) :
  init_at w st → pending w !! k = Some at_ → init_stage at_ = true →
  st = InitAwaiting k at_.
Proof.
  intros Hst Hk Hi. destruct st as [|k0 a0| |k0]; cbn [init_at] in Hst.
  - destruct Hst as (_ & _ & _ & _ & _ & Hn). rewrite (Hn k at_ Hk) in Hi. discriminate.
  - destruct Hst as (_ & _ & _ & [Hk0 Hu] & _). specialize (Hu k at_ Hk Hi). subst.
    congruence.
  - destruct Hst as (_ & _ & Hn & _). rewrite (Hn k at_ Hk) in Hi. discriminate.
  - destruct Hst as (_ & _ & Hn & _). rewrite (Hn k at_ Hk) in Hi. discriminate.
Qed.

Lemma init_inv_step (w : World) (ev : event) (w' : World) :
  fresh_ids w → init_inv w → step w ev = Some w' → init_inv w'.
Proof.
  intros Hf [st Hst] Hstep.
  destruct ev as [| |m|shot|files|k s].
  { (* the effect runs: [initWorker] is called and parks on [load] *)
    unfold step in Hstep. destruct (phase w) eqn:Hp; try discriminate.
    injection Hstep as <-.
    destruct st as [|k0 a0| |k0]; cbn [init_at] in Hst;
      try (destruct Hst as (Hp' & _); congruence).
    destruct Hst as (_ & Hr & Hc & Hy & Hu & Hn).
    exists (InitAwaiting (next_id w) AtLoad). unfold initWorker. msimpl.
    cbn [init_at]. unfold init_parked. psimpl.
    repeat split; try discriminate; try assumption.
    - apply lookup_insert_eq.
    - intros k' a Hk' Hi. destruct (decide (next_id w = k')) as [|Hne]; [congruence|].
      rewrite lookup_insert_ne in Hk' by assumption.
      rewrite (Hn k' a Hk') in Hi. discriminate.
    - filter_calls. fold (worker_calls w). rewrite Hc. reflexivity. }
  1-4: exists st; apply (init_frame_at w w' st); [|exact Hst];
    apply (step_init_frame w _ w' Hf Hstep); [discriminate | intros ? ? ? [=]].
  destruct (pending w !! k) as [at_|] eqn:Hk;
    [|unfold step in Hstep; rewrite Hk in Hstep; discriminate].
  destruct (init_stage at_) eqn:Hi.
  - (* one of [initWorker]'s awaits settles *)
    pose proof (init_at_parked w st k at_ Hst Hk Hi) as ->. cbn [init_at] in Hst.
    destruct Hst as (Hp & Hr & _ & Hpk & Hc & Hy & Hu).
    unfold step in Hstep. rewrite Hk in Hstep.
    destruct at_, s as [o| | | | |]; try discriminate; cbn [continue] in Hstep;
      injection Hstep as <-; destruct o as [[]|]; unfold_handlers; msimpl.
    all: try (match goal with |- context [<[?i := ?a]> _] => exists (InitAwaiting i a) end;
              cbn [init_at]; psimpl;
              split; [assumption|]; split; [assumption|]; split; [reflexivity|];
              split; [eapply init_parked_insert; [exact Hpk | reflexivity]|];
              split; [filter_calls; fold (worker_calls w); rewrite Hc; reflexivity|];
              split; assumption).
    all: try (exists (InitFailed k); cbn [init_at]; psimpl;
              split; [assumption|]; split; [assumption|];
              split; [eapply init_parked_delete; [exact Hpk | reflexivity]|];
              split; [eexists; split; [|filter_calls; fold (worker_calls w); exact Hc];
                      cbn [calls_before]; lia|];
              split; [assumption | rewrite Hu; reflexivity]).
    exists InitDone. cbn [init_at]. psimpl.
    split; [assumption|]. split; [assumption|].
    split; [eapply init_parked_delete; [exact Hpk | reflexivity]|].
    split; [filter_calls; fold (worker_calls w); exact Hc|].
    split; [reflexivity | assumption].
  - exists st. apply (init_frame_at w w' st); [|exact Hst].
    apply (step_init_frame w _ w' Hf Hstep); [discriminate|].
    intros k' s' a [= <- <-] Hk'. congruence.
Qed.

Lemma reachable_init_inv (w : World) : reachable w → init_inv w.
Proof.
  intros Hw.
  cut (fresh_ids w ∧ init_inv w); [tauto|]. revert w Hw.
  apply reachable_invariant.
  - split; [apply reachable_fresh_ids; exists []; reflexivity|].
    exists InitNotStarted. cbn [init_at]. repeat split.
    intros k a H. change ((∅ : gmap nat suspended) !! k = Some a) in H.
    rewrite lookup_empty in H. discriminate.
  - intros w ev w' [Hf Hi] Hstep.
    split; [exact (fresh_ids_step w ev w' Hf Hstep) | exact (init_inv_step w ev w' Hf Hi Hstep)].
Qed.

Lemma reachable_ready (w : World) :
  reachable w → isWorkerReady (ui w) = true → init_at w InitDone.
Proof.
  intros Hw Hy. destruct (reachable_init_inv w Hw) as [st Hst].
  destruct st as [|k a| |k]; [| |exact Hst|]; cbn [init_at] in Hst;
    intuition congruence.
Qed.

(** X3. The engine is created once and initialized in the order of lines
    22-33: in every world the component can be in, the engine calls made
    so far are a prefix of [createWorker], [load], [loadLanguage('eng')],
    [initialize('eng')], and when the ready flag is up all four have been
    made, the worker ref is set and nothing is uncaught. *)
Theorem engine_initialized_in_order (w : World) :
  reachable w →
  (∃ n, worker_calls w = take n init_sequence) ∧
  (isWorkerReady (ui w) = true →
   worker_calls w = init_sequence ∧ workerRef w ≠ None ∧
   phase w ≠ Rendered ∧ uncaught w = []).
Proof.
  intros Hw. destruct (reachable_init_inv w Hw) as [st Hst].
  destruct st as [|k a| |k]; cbn [init_at] in Hst.
  - destruct Hst as (_ & _ & Hc & Hy & _). split; [exists 0%nat; exact Hc | congruence].
  - destruct Hst as (_ & _ & _ & _ & Hc & Hy & _). split; [eexists; exact Hc | congruence].
  - destruct Hst as (Hp & Hr & _ & Hc & _ & Hu). split; [exists 4%nat; exact Hc | tauto].
  - destruct Hst as (_ & _ & _ & (n & _ & Hc) & Hy & _). split; [eexists; exact Hc | congruence].
Qed.

Lemma engine_initialized_in_order_witness :
  reachable (world_after capturing) ∧
  worker_calls (world_after capturing) = init_sequence.
Proof.
  assert (Hr : reachable (world_after capturing)).
  { exists capturing. vm_compute. reflexivity. }
  split; [exact Hr|].
  exact (proj1 (proj2 (engine_initialized_in_order (world_after capturing) Hr)
                  ltac:(vm_compute; reflexivity))).
Defined.

(** Once [initWorker] is over, well or badly, no step touches what it left. *)
Lemma init_over_frame (w : World) (ev : event) (w' : World) :
  reachable w → phase w ≠ Rendered → no_init_parked w →
  step w ev = Some w' → init_frame w w'.
Proof.
  intros Hw Hp Hn Hstep.
  apply (step_init_frame w ev w' (reachable_fresh_ids w Hw) Hstep).
  - intros ->. unfold step in Hstep. destruct (phase w); congruence.
  - intros k s a _ Hk. exact (Hn k a Hk).
Qed.

(** X4. The ready flag never goes down again: from a world where the engine
    is ready, every run leads to worlds where it is, with the same engine
    calls made and nothing uncaught. *)
Theorem ready_is_stable (w : World) (evs : list event) (w' : World) :
  reachable w → isWorkerReady (ui w) = true →
  run w evs = Some w' →
  isWorkerReady (ui w') = true ∧ worker_calls w' = init_sequence ∧ uncaught w' = [].
Proof.
  intros Hw Hy Hrun.
  assert (Hinv : reachable w' ∧ isWorkerReady (ui w') = true).
  { revert Hrun. apply (run_invariant (λ w, reachable w ∧ isWorkerReady (ui w) = true));
      [|tauto].
    intros w0 ev w1 [Hw0 Hy0] Hstep. split; [exact (reachable_step w0 w1 ev Hw0 Hstep)|].
    destruct (reachable_init_inv w0 Hw0) as [st Hst].
    destruct st as [|k a| |k]; cbn [init_at] in Hst; try (intuition congruence).
    destruct Hst as (Hp & _ & Hn & _).
    destruct (init_over_frame w0 ev w1 Hw0 Hp Hn Hstep) as (_ & _ & _ & Hy1 & _).
    congruence. }
  destruct Hinv as [Hw' Hy']. split; [exact Hy'|].
  destruct (reachable_ready w' Hw' Hy') as (_ & _ & _ & Hc & _ & Hu). tauto.
Qed.

Lemma ready_is_stable_witness :
  reachable (world_after engine_ready) ∧
  isWorkerReady (ui (world_after engine_ready)) = true ∧
  run (world_after engine_ready) [ClickCapture (Some jpeg1); Unmount]
  = Some (world_after unmount_in_flight) ∧
  isWorkerReady (ui (world_after unmount_in_flight)) = true.
Proof.
  assert (Hr : reachable (world_after engine_ready)).
  { exists engine_ready. vm_compute. reflexivity. }
  assert (Hrun : run (world_after engine_ready) [ClickCapture (Some jpeg1); Unmount]
                 = Some (world_after unmount_in_flight)) by (vm_compute; reflexivity).
  split; [exact Hr|]. split; [vm_compute; reflexivity|]. split; [exact Hrun|].
  exact (proj1 (ready_is_stable _ _ _ Hr ltac:(vm_compute; reflexivity) Hrun)).
Defined.

(** X5. A failed initialization is not retried.  When one of [initWorker]'s
    awaits rejects, the rejection is left unhandled, and from then on,
    whatever happens, the ready flag stays down, none of [createWorker],
    [load], [loadLanguage] and [initialize] is called again, the capture
    button cannot be clicked, and the worker that failed stays in the
    ref (where the guard of [runOcr] and the cleanup still find it). *)
Theorem failed_init_is_final (w : World) (k : nat) (at_ : suspended) :
  reachable w → pending w !! k = Some at_ → init_stage at_ = true →
  (∃ w1, step w (Settle k (Done Rejected)) = Some w1 ∧
         uncaught w1 = [UnhandledRejection k]) ∧
  (∀ evs w', run w (Settle k (Done Rejected) :: evs) = Some w' →
             isWorkerReady (ui w') = false ∧
             uncaught w' = [UnhandledRejection k] ∧
             worker_calls w' = worker_calls w ∧
             workerRef w' ≠ None ∧
             ∀ shot, step w' (ClickCapture shot) = None).
Proof.
  intros Hw Hk Hi.
  assert (Hstep : ∃ w1, step w (Settle k (Done Rejected)) = Some w1 ∧
                        uncaught w1 = uncaught w ++ [UnhandledRejection k] ∧
                        worker_calls w1 = worker_calls w).
  { unfold step. rewrite Hk. destruct at_; try discriminate; cbn [continue];
      eexists; (split; [reflexivity|]); split; reflexivity. }
  destruct Hstep as (w1 & Hstep & Hu1 & Hc1).
  destruct (reachable_init_inv w Hw) as [st Hst].
  pose proof (init_at_parked w st k at_ Hst Hk Hi) as ->. cbn [init_at] in Hst.
  destruct Hst as (_ & _ & _ & _ & _ & _ & Hu). rewrite Hu in Hu1. cbn [app] in Hu1.
  split; [exists w1; split; [exact Hstep | exact Hu1]|].
  intros evs w' Hrun. rewrite (run_step _ _ _ _ Hstep) in Hrun.
  pose proof (reachable_step w w1 _ Hw Hstep) as Hw1.
  set (P := λ x, reachable x ∧ uncaught x = [UnhandledRejection k] ∧
                 worker_calls x = worker_calls w).
  assert (HP : ∀ x, P x → init_at x (InitFailed k)).
  { intros x (Hx & Hux & _). destruct (reachable_init_inv x Hx) as [st Hst].
    destruct st as [|k0 a0| |k0]; cbn [init_at] in Hst.
    - destruct Hst as (_ & _ & _ & _ & Hu0 & _). congruence.
    - destruct Hst as (_ & _ & _ & _ & _ & _ & Hu0). congruence.
    - destruct Hst as (_ & _ & _ & _ & _ & Hu0). congruence.
    - destruct Hst as (? & ? & ? & ? & ? & Hu0). rewrite Hux in Hu0.
      injection Hu0 as <-. cbn [init_at]. rewrite Hux. tauto. }
  assert (Hfin : P w').
  { revert Hrun. apply (run_invariant P); [|split; [exact Hw1 | tauto]].
    intros x ev x' Hx Hs. pose proof (HP x Hx) as (Hp & _ & Hn & _).
    destruct Hx as (Hrx & Hux & Hcx).
    destruct (init_over_frame x ev x' Hrx Hp Hn Hs) as (_ & _ & Hc' & _ & Hu' & _).
    split; [exact (reachable_step x x' ev Hrx Hs)|]. split; congruence. }
  pose proof (HP w' Hfin) as (_ & Hwr & _ & _ & Hy & _).
  destruct Hfin as (_ & Hu' & Hc').
  split; [exact Hy|]. split; [exact Hu'|]. split; [exact Hc'|]. split; [exact Hwr|].
  intros shot. unfold step. rewrite Hy. destruct (phase w'); reflexivity.
Qed.

Lemma failed_init_is_final_witness :
  reachable (world_after [Mount]) ∧
  pending (world_after [Mount]) !! 0%nat = Some AtLoad ∧
  run (world_after [Mount]) [Settle 0 (Done Rejected); FileChange [lit "label.jpg"]]
  = Some (world_after (load_fails ++ [FileChange [lit "label.jpg"]])) ∧
  isWorkerReady (ui (world_after (load_fails ++ [FileChange [lit "label.jpg"]]))) = false ∧
  uncaught (world_after (load_fails ++ [FileChange [lit "label.jpg"]]))
  = [UnhandledRejection 0].
Proof.
  assert (Hr : reachable (world_after [Mount])).
  { exists [Mount]. vm_compute. reflexivity. }
  assert (Hrun : run (world_after [Mount])
                   [Settle 0 (Done Rejected); FileChange [lit "label.jpg"]]
                 = Some (world_after (load_fails ++ [FileChange [lit "label.jpg"]])))
    by (vm_compute; reflexivity).
  split; [exact Hr|]. split; [vm_compute; reflexivity|]. split; [exact Hrun|].
  pose proof (proj2 (failed_init_is_final (world_after [Mount]) 0 AtLoad
                       Hr ltac:(vm_compute; reflexivity) eq_refl) _ _ Hrun) as H.
  split; [exact (proj1 H) | exact (proj1 (proj2 H))].
Defined.

(** ** The guard of runOcr *)

Lemma reachable_worker (w : World) :
  reachable w → (workerRef w = None ↔ phase w = Rendered).
Proof.
  intros Hw. destruct (reachable_init_inv w Hw) as [st Hst].
  destruct st as [|k a| |k]; cbn [init_at] in Hst; intuition congruence.
Qed.

(** X6. The capture button never meets the guard.  Whenever the button can be
    clicked and the camera yields an image, the click starts a job: the
    only call made is [recognize] on that image, with no alert, and the
    job is parked on it with the loading flag up. *)
Theorem capture_always_recognizes (w : World) (img : jsstring) (w' : World) :
  reachable w → img ≠ [] →
  step w (ClickCapture (Some img)) = Some w' →
  calls w' = calls w ++ [Recognize (next_id w) img] ∧
  pending w' !! next_id w = Some AtRecognize ∧
  loadingOcr (ui w') = true ∧ imageSrc (ui w') = Some img ∧
  ocrText (ui w') = [] ∧ ocrProgress (ui w') = IInt 0.
Proof.
  intros Hw Hi Hstep.
  assert (Hen : phase w ≠ Unmounted ∧ isWorkerReady (ui w) = true).
  { unfold step in Hstep. destruct (phase w); try discriminate;
      destruct (isWorkerReady (ui w)); try discriminate; split; congruence. }
  destruct Hen as [Hp Hy].
  destruct (reachable_ready w Hw Hy) as (_ & Hr & _).
  rewrite (step_capture w img Hp Hy Hr Hi) in Hstep. injection Hstep as <-.
  psimpl. repeat split. apply lookup_insert_eq.
Qed.

Lemma capture_always_recognizes_witness :
  reachable (world_after engine_ready) ∧
  step (world_after engine_ready) (ClickCapture (Some jpeg1)) = Some (world_after capturing) ∧
  calls (world_after capturing) = calls (world_after engine_ready) ++ [Recognize 1 jpeg1].
Proof.
  assert (Hr : reachable (world_after engine_ready)).
  { exists engine_ready. vm_compute. reflexivity. }
  assert (Hs : step (world_after engine_ready) (ClickCapture (Some jpeg1))
               = Some (world_after capturing)) by (vm_compute; reflexivity).
  split; [exact Hr|]. split; [exact Hs|].
  exact (proj1 (capture_always_recognizes _ jpeg1 _ Hr ltac:(vm_compute; discriminate) Hs)).
Defined.

(** X7. Once the mount effect has run, an upload never meets the guard of
    [runOcr]: the worker ref is set from then on, so a file that has been
    read always starts a job, with [recognize] as the only call and no
    alert, whether the engine is ready, still initializing or has failed
    to initialize. *)
Theorem mounted_upload_recognizes (w : World) (k : nat) (img : jsstring) :
  reachable w → phase w ≠ Rendered → pending w !! k = Some AtFileRead →
  workerRef w ≠ None ∧
  ∃ w', step w (Settle k (FileRead img)) = Some w' ∧
        calls w' = calls w ++ [Recognize k img] ∧
        pending w' !! k = Some AtRecognize ∧
        loadingOcr (ui w') = true ∧ imageSrc (ui w') = Some img ∧
        ocrText (ui w') = [] ∧ ocrProgress (ui w') = IInt 0.
Proof.
  intros Hw Hp Hk.
  assert (Hr : workerRef w ≠ None).
  { intros Hn. apply Hp, (reachable_worker w Hw), Hn. }
  split; [exact Hr|]. rewrite (step_file_read w k img Hk Hr).
  eexists. split; [reflexivity|]. psimpl. repeat split. apply lookup_insert_eq.
Qed.

Lemma mounted_upload_recognizes_witness :
  reachable (world_after upload_after_failure) ∧
  uncaught (world_after upload_after_failure) = [UnhandledRejection 0] ∧
  ∃ w', step (world_after upload_after_failure) (Settle 1 (FileRead jpeg1)) = Some w' ∧
        calls w' = calls (world_after upload_after_failure) ++ [Recognize 1 jpeg1] ∧
        pending w' !! 1%nat = Some AtRecognize ∧
        loadingOcr (ui w') = true ∧ imageSrc (ui w') = Some jpeg1 ∧
        ocrText (ui w') = [] ∧ ocrProgress (ui w') = IInt 0.
Proof.
  assert (Hr : reachable (world_after upload_after_failure)).
  { exists upload_after_failure. vm_compute. reflexivity. }
  split; [exact Hr|]. split; [vm_compute; reflexivity|].
  exact (proj2 (mounted_upload_recognizes (world_after upload_after_failure) 1 jpeg1 Hr
                  ltac:(vm_compute; discriminate) ltac:(vm_compute; reflexivity))).
Defined.

(** ** What the user is shown *)

Lemma recognized_text_trimmed (r : RecognizeResult) :
  trim (recognized_text r) = recognized_text r.
Proof.
  unfold recognized_text. destruct (data r) as [d|]; [|reflexivity].
  destruct (text d) as [t|]; [|reflexivity].
  destruct (truthy_string t); [apply trim_idem | reflexivity].
Qed.

(** A fixed point of [trim] has no white space at either end. *)
Lemma trim_fixed_trimmed (s : jsstring) : trim s = s → trimmed s.
Proof.
  unfold trim, trimEnd. intros Hs.
  set (a := trimStart s) in *. set (b := trimStart (rev a)) in *.
  assert (Hb : b = rev s) by (rewrite <- Hs; symmetry; apply rev_involutive).
  split.
  - intros c t Hc.
    destruct (trimStart_suffix (rev a)) as [pre Hpre]. fold b in Hpre.
    assert (Ha : a = c :: rev (pre ++ rev t)).
    { rewrite <- (rev_involutive a), Hpre, Hb, Hc. simpl.
      rewrite app_assoc, rev_app_distr. reflexivity. }
    exact (trimStart_head s c _ Ha).
  - intros c t Hc. apply (trimStart_head (rev a) c (rev t)).
    fold b. rewrite Hb, Hc, rev_app_distr. reflexivity.
Qed.

Lemma loading_inv_step (w : World) (ev : event) (w' : World) :
  fresh_ids w → loading_inv w → step w ev = Some w' → loading_inv w'.
Proof.
  intros Hf Hinv Hstep. unfold loading_inv in *.
  run_step Hstep; intros Hl;
    first
      [ discriminate Hl
      | eexists; apply lookup_insert_eq
      | destruct (Hinv Hl) as [k0 Hk0]; exists k0;
        repeat match goal with
               | |- context [<[?i := _]> _ !! ?j] =>
                   destruct (decide (i = j));
                   [subst; rewrite lookup_insert_eq | rewrite lookup_insert_ne by assumption]
               | |- context [delete ?i _ !! ?j] =>
                   destruct (decide (i = j));
                   [subst; rewrite lookup_delete_eq | rewrite lookup_delete_ne by assumption]
               end;
        try assumption; try congruence;
        match goal with H : pending _ !! next_id _ = Some _ |- _ => apply Hf in H; lia end ].
Qed.

Lemma published_inv_step (w : World) (ev : event) (w' : World) :
  published_inv w → step w ev = Some w' → published_inv w'.
Proof.
  intros [Ht Hw] Hstep. unfold published_inv.
  run_step Hstep; split;
    try assumption; try reflexivity; try discriminate;
    try apply recognized_text_trimmed;
    intros [= ->]; discriminate.
Qed.

Lemma reachable_shown (w : World) : reachable w → loading_inv w ∧ published_inv w.
Proof.
  intros Hw.
  cut (fresh_ids w ∧ loading_inv w ∧ published_inv w); [tauto|]. revert w Hw.
  apply reachable_invariant.
  - split; [apply reachable_fresh_ids; exists []; reflexivity|].
    split; [intros [=] | split; [reflexivity | discriminate]].
  - intros w ev w' (Hf & Hl & Hp) Hstep.
    split; [exact (fresh_ids_step w ev w' Hf Hstep)|].
    split; [exact (loading_inv_step w ev w' Hf Hl Hstep)
           | exact (published_inv_step w ev w' Hp Hstep)].
Qed.

(** X8. The progress panel is only shown while a recognition is out: in every
    world the component can be in where "Running OCR..." is rendered, some
    job is parked on its [recognize] call, and the label is made of the
    published progress. *)
Theorem spinner_means_recognizing (w : World) (label : jsstring) (v : integral) :
  reachable w →
  ocr_area (render (ui w)) = RunningOcr label v →
  (∃ k, pending w !! k = Some AtRecognize) ∧
  v = ocrProgress (ui w) ∧
  label = lit "Running OCR... " ++ NumberToString (ocrProgress (ui w)) ++ lit "%".
Proof.
  intros Hw Hv. destruct (reachable_shown w Hw) as [Hl _].
  unfold render in Hv. cbn [ocr_area] in Hv.
  destruct (loadingOcr (ui w)) eqn:E; [|discriminate].
  injection Hv as <- <-. split; [exact (Hl E) | split; reflexivity].
Qed.

Lemma spinner_means_recognizing_witness :
  reachable (world_after capturing) ∧
  ocr_area (render (ui (world_after capturing)))
  = RunningOcr (lit "Running OCR... 0%") (IInt 0) ∧
  ∃ k, pending (world_after capturing) !! k = Some AtRecognize.
Proof.
  assert (Hr : reachable (world_after capturing)).
  { exists capturing. vm_compute. reflexivity. }
  assert (Hv : ocr_area (render (ui (world_after capturing)))
               = RunningOcr (lit "Running OCR... 0%") (IInt 0)) by (vm_compute; reflexivity).
  split; [exact Hr|]. split; [exact Hv|].
  exact (proj1 (spinner_means_recognizing _ _ _ Hr Hv)).
Defined.

(** X9. The text panel shows the published text, which never starts or ends
    with white space, or a dash when there is none. *)
Theorem shown_text_is_trimmed (w : World) (t : jsstring) :
  reachable w →
  ocr_area (render (ui w)) = ExtractedText t →
  loadingOcr (ui w) = false ∧
  ((ocrText (ui w) = [] ∧ t = em_dash) ∨
   (t = ocrText (ui w) ∧ t ≠ [] ∧ trimmed t)).
Proof.
  intros Hw Hv. destruct (reachable_shown w Hw) as [_ [Ht _]].
  unfold render in Hv. cbn [ocr_area] in Hv.
  destruct (loadingOcr (ui w)); [discriminate|]. injection Hv as <-.
  split; [reflexivity|].
  destruct (ocrText (ui w)) as [|c s] eqn:E; [left; split; reflexivity|].
  right. cbn [truthy_string]. split; [reflexivity|]. split; [discriminate|].
  apply trim_fixed_trimmed, Ht.
Qed.

Lemma shown_text_is_trimmed_witness :
  reachable (world_after recognized) ∧
  ocr_area (render (ui (world_after recognized))) = ExtractedText (lit "PARACETAMOL 500mg") ∧
  trimmed (lit "PARACETAMOL 500mg").
Proof.
  assert (Hr : reachable (world_after recognized)).
  { exists recognized. vm_compute. reflexivity. }
  assert (Hv : ocr_area (render (ui (world_after recognized)))
               = ExtractedText (lit "PARACETAMOL 500mg")) by (vm_compute; reflexivity).
  split; [exact Hr|]. split; [exact Hv|].
  destruct (proj2 (shown_text_is_trimmed _ _ Hr Hv)) as [[_ H]|(_ & _ & H)];
    [discriminate H | exact H].
Defined.

(** X10. The warning box shows every published warning: no empty string is
    ever published as a warning (a backend's empty warning is dropped,
    the component's own messages are not empty), so the truthiness test
    of line 214 hides nothing. *)
Theorem warning_box_shows_warning (w : World) :
  reachable w →
  warning (ui w) ≠ Some [] ∧ warning_box (render (ui w)) = warning (ui w).
Proof.
  intros Hw. destruct (reachable_shown w Hw) as [_ [_ Hn]].
  split; [exact Hn|]. unfold render. cbn [warning_box].
  destruct (warning (ui w)) as [[|c s]|] eqn:E;
    [exfalso; exact (Hn eq_refl) | reflexivity | reflexivity].
Qed.

Lemma warning_box_shows_warning_witness :
  reachable (world_after half_way_then_fails) ∧
  warning_box (render (ui (world_after half_way_then_fails))) = Some no_text_warning.
Proof.
  assert (Hr : reachable (world_after half_way_then_fails)).
  { exists half_way_then_fails. vm_compute. reflexivity. }
  split; [exact Hr|].
  rewrite (proj2 (warning_box_shows_warning _ Hr)). vm_compute. reflexivity.
Defined.

Lemma percent_of_score_range (s : number) :
  is_nan s = false → ∃ p : Z, percent_of_score s = IInt p ∧ 0 ≤ p ≤ 100.
Proof.
  intros Hs. unfold percent_of_score.
  assert (Hr : Math_round (num_mul (num_sub (number_of_positive 1) s)
                             (number_of_positive 100)) ≠ INaN).
  { apply Math_round_not_nan, num_mul_not_nan.
    - apply num_sub_not_nan; [|exact Hs]. vm_compute. eauto.
    - vm_compute. eauto. }
  destruct (Math_round _) as [|[]| |r]; [congruence| | | |].
  - exists 0. split; [reflexivity | lia].
  - exists 100. split; [reflexivity | lia].
  - exists 0. split; [reflexivity | lia].
  - exists (Z.max 0 (Z.min 100 r)). split; [|lia].
    unfold Math_min, Math_max, integral_ltb.
    destruct (r <? 100) eqn:E1; [destruct (0 <? r) eqn:E2|];
      rewrite ?Z.ltb_lt, ?Z.ltb_ge in *; f_equal; lia.
Qed.

(** X11. The list of results.  It is replaced by the "No results yet" line
    exactly when no match is published; otherwise it has one line for
    each match, in the order published: line [i] carries the name of
    match [i] unchanged, is marked best exactly when it is the first, and
    shows as confidence a dash for a score that is no number and an
    integer percentage from 0 to 100 for a number other than NaN. *)
Theorem results_follow_matches (p : Presentation) :
  (results (render p) = NoResults ↔ matches p = []) ∧
  ∀ items, results (render p) = MatchList items →
    length items = length (matches p) ∧
    match_name <$> items = name <$> matches p ∧
    ∀ i it, items !! i = Some it →
      ∃ m, matches p !! i = Some m ∧ key it = i ∧ match_name it = name m ∧
           (className it = lit "best" ↔ i = 0%nat) ∧
           confidence_shown m (match_score it).
Proof.
  unfold render. cbn [results]. split.
  - destruct (matches p); split; congruence.
  - intros items Hi.
    assert (Hit : items = imap render_match (matches p)).
    { destruct (matches p); [discriminate | congruence]. }
    clear Hi. subst items. split; [apply length_imap|]. split.
    + rewrite fmap_imap. apply imap_const.
    + intros i it Hl. apply list_lookup_imap_Some in Hl as (m & Hm & ->).
      exists m. split; [exact Hm|]. unfold render_match.
      cbn [key match_name className match_score].
      split; [reflexivity|]. split; [reflexivity|]. split.
      * destruct i; cbn [Nat.eqb]; split; intros H; try reflexivity;
          try discriminate H; vm_compute in H; discriminate H.
      * unfold confidence_shown, scoreToPercent.
        destruct (score m) as [| | |s|]; try reflexivity.
        intros Hs. destruct (percent_of_score_range s Hs) as (q & -> & Hq).
        exists q. split; [exact Hq|].
        rewrite NumberToString_percent by exact Hq. reflexivity.
Qed.

Lemma results_follow_matches_witness :
  ∃ items,
    results (render (ui (world_after two_matches_found))) = MatchList items ∧
    match_name <$> items = [lit "Paracetamol"; lit "Ibuprofen"].
Proof.
  eexists. split; [vm_compute; reflexivity|].
  match goal with |- fmap _ ?items = _ =>
    rewrite (proj1 (proj2 (proj2 (results_follow_matches
               (ui (world_after two_matches_found))) items
               ltac:(vm_compute; reflexivity))))
  end.
  vm_compute. reflexivity.
Defined.

(** ** The calls of a job *)

Lemma step_others (w : World) (ev : event) (w' : World) (k : nat) :
  step w ev = Some w' → k ≠ job_of w ev →
  pending w' !! k = pending w !! k ∧ job_calls k w' = job_calls k w.
Proof.
  intros Hstep Hk. unfold job_calls.
  destruct ev; cbn [job_of] in Hk;
  match type of Hk with _ ≠ ?j =>
    assert (He : Nat.eqb j k = false) by (apply Nat.eqb_neq; congruence)
  end;
  run_step Hstep; split;
    rewrite ?lookup_insert_ne, ?lookup_delete_ne by congruence;
    rewrite ?List.filter_app; cbn [List.filter for_job]; rewrite ?He, ?app_nil_r;
    reflexivity.
Qed.

Lemma unused_step (w : World) (ev : event) (w' : World) :
  job_inv w → step w ev = Some w' →
  ∀ k, (next_id w' ≤ k)%nat → job_calls k w' = [].
Proof.
  intros (Hf & Hu & _) Hstep. unfold job_calls in *.
  run_step Hstep; intros k' Hk'; psimpl_all;
    try match goal with
        | H : pending w !! _ = Some _ |- _ => pose proof (Hf _ _ H)
        end;
    rewrite ?List.filter_app; cbn [List.filter for_job];
    repeat match goal with
           | |- context [Nat.eqb ?j k'] =>
               replace (Nat.eqb j k') with false by (symmetry; apply Nat.eqb_neq; lia)
           end;
    rewrite ?app_nil_r; apply Hu; lia.
Qed.

Lemma truthy_not_empty (s : jsstring) (b : bool) :
  negb (truthy_string s) || b = false → s ≠ [].
Proof. intros H ->. discriminate H. Qed.

(** Picks the parameters of the job's sequence off the calls the step
    has made, and leaves the three parts of [job_at]. *)
Ltac job_witness file img t ok :=
  match goal with
  | |- context [ReadAsDataURL _ ?f] => exists (Some f)
  | _ => exists file
  end;
  match goal with
  | |- context [Recognize _ ?i] => exists i
  | _ => exists img
  end;
  match goal with
  | |- context [Fetch _ _ ?x] => exists x
  | _ => exists t
  end;
  match goal with
  | |- context [ResJson _] => exists true
  | |- context [ResText _] => exists false
  | _ => exists ok
  end.

Lemma job_at_step_actor (w : World) (ev : event) (w' : World) :
  job_inv w → step w ev = Some w' → job_at w' (job_of w ev).
Proof.
  intros (Hf & Hu & Hj) Hstep.
  destruct (Hj (job_of w ev)) as (file & img & t & ok & n & Hst & Hc & Ht).
  destruct ev; cbn [job_of] in *.
  1-5: pose proof (Hu _ (le_n _)) as Hu0; clear Hc Hst.
  1-5: assert (Hp : pending w !! next_id w = None)
         by (destruct (pending w !! next_id w) eqn:E; [apply Hf in E; lia | reflexivity]).
  1-5: run_step Hstep;
    try (exfalso;
         match goal with
         | H : negb (truthy_string []) || _ = false |- _ => cbn in H; discriminate H
         end);
    job_witness (@None jsstring) img t ok;
    match goal with
    | |- ∃ n, _ ∧ job_calls ?k ?w' = _ ∧ _ => exists (length (job_calls k w'))
    end;
    unfold job_calls in *; psimpl;
    rewrite ?List.filter_app; cbn [List.filter for_job];
    rewrite ?Nat.eqb_refl, ?app_nil_r, ?lookup_insert_eq, ?Hu0, ?Hp;
    (split; [cbn; auto; try (split; [discriminate | reflexivity])
            | split; [reflexivity | exact Ht]]).
  open_step Hstep;
    try match goal with H : pending _ !! _ = Some _ |- _ => rewrite H in Hst end;
    cbn [job_stage] in Hst;
    unfold_handlers; msimpl; split_handler;
    try (exfalso;
         match goal with
         | H : negb (truthy_string []) || _ = false |- _ => cbn in H; discriminate H
         end);
    job_witness file img t ok;
    destruct file as [f|]; cbn [reads Nat.add] in Hst;
    try match type of Hst with _ ∧ _ => destruct Hst as [Hst Hok] end;
    try congruence; subst;
    match goal with
    | |- ∃ n, _ ∧ job_calls ?k ?w' = _ ∧ _ => exists (length (job_calls k w'))
    end;
    unfold job_calls in *; cbn [take job_sequence app] in Hc; psimpl;
    rewrite ?List.filter_app; cbn [List.filter for_job];
    rewrite ?Nat.eqb_refl, ?app_nil_r, ?lookup_insert_eq, ?lookup_delete_eq, ?Hc;
    (split; [cbn; repeat split; try reflexivity; try discriminate
            | split; [reflexivity
                     | first [ exact Ht
                             | split; [eapply truthy_not_empty; eassumption
                                      | apply recognized_text_trimmed] ]]]).
Qed.

Lemma job_inv_step (w : World) (ev : event) (w' : World) :
  job_inv w → step w ev = Some w' → job_inv w'.
Proof.
  intros Hinv Hstep. split; [|split].
  - exact (fresh_ids_step w ev w' (proj1 Hinv) Hstep).
  - exact (unused_step w ev w' Hinv Hstep).
  - intros k. destruct (decide (k = job_of w ev)) as [->|Hk].
    + exact (job_at_step_actor w ev w' Hinv Hstep).
    + destruct (step_others w ev w' k Hstep Hk) as [Hp Hc].
      destruct Hinv as (_ & _ & Hj). unfold job_at. rewrite Hp, Hc. exact (Hj k).
Qed.

Lemma reachable_job_inv (w : World) : reachable w → job_inv w.
Proof.
  apply reachable_invariant; [|exact job_inv_step].
  split; [apply reachable_fresh_ids; exists []; reflexivity|].
  split; [reflexivity|].
  intros k. exists None, [], (lit "x"), false, 0%nat.
  change (pending initial_world !! k) with ((∅ : gmap nat suspended) !! k).
  rewrite lookup_empty. split; [exact I|]. split; [reflexivity|].
  split; [discriminate | reflexivity].
Qed.

Lemma filter_sublist {A} (f : A → bool) (l : list A) : List.filter f l `sublist_of` l.
Proof.
  induction l as [|x l IH]; cbn [List.filter]; [constructor|].
  destruct (f x); [apply sublist_skip | apply sublist_cons]; exact IH.
Qed.

(** X12. A job's calls come in the order of the source, each at most once: in
    every world the component can be in, the calls made for an activation
    are the first ones of the file read (for an upload), [recognize],
    [fetch] and the read of the response's body, text or JSON. *)
Theorem job_calls_in_order (w : World) (k : nat) :
  reachable w →
  ∃ file img t ok, job_calls k w `prefix_of` job_sequence k file img t ok.
Proof.
  intros Hw. destruct (reachable_job_inv w Hw) as (_ & _ & Hj).
  destruct (Hj k) as (file & img & t & ok & n & _ & Hc & _).
  exists file, img, t, ok. rewrite Hc.
  exists (drop n (job_sequence k file img t ok)). symmetry. apply take_drop.
Qed.

Lemma job_calls_in_order_witness :
  reachable (world_after upload_to_json) ∧
  ∃ file img t ok,
    job_calls 1 (world_after upload_to_json) `prefix_of` job_sequence 1 file img t ok.
Proof.
  assert (Hr : reachable (world_after upload_to_json)).
  { exists upload_to_json. vm_compute. reflexivity. }
  split; [exact Hr | exact (job_calls_in_order _ 1%nat Hr)].
Defined.

(** X13. No search without a recognized text: in every world the component
    can be in, each [fetch] made went to the search endpoint with a text
    that is not empty and has no white space at its ends, and the job it
    belongs to had called [recognize] before. *)
Theorem search_follows_recognition (w : World) (k : nat) (e t : jsstring) :
  reachable w → Fetch k e t ∈ calls w →
  e = BACKEND_SEARCH_ENDPOINT ∧ t ≠ [] ∧ trimmed t ∧
  ∃ img, [Recognize k img; Fetch k e t] `sublist_of` calls w.
Proof.
  intros Hw Hin. destruct (reachable_job_inv w Hw) as (_ & _ & Hj).
  destruct (Hj k) as (file & img & t0 & ok & n & _ & Hc & Hne & Htr).
  assert (Hf : Fetch k e t ∈ job_calls k w).
  { apply list_elem_of_In, List.filter_In. split; [apply list_elem_of_In, Hin|].
    cbn [for_job]. apply Nat.eqb_refl. }
  pose proof (filter_sublist (for_job k) (calls w)) as Hs. fold (job_calls k w) in Hs.
  rewrite Hc in Hf, Hs. clear Hc Hj.
  assert (He : e = BACKEND_SEARCH_ENDPOINT ∧ t = t0 ∧
               [Recognize k img; Fetch k e t]
                 `sublist_of` take n (job_sequence k file img t0 ok)).
  { destruct file as [f|], ok, n as [|[|[|[|[|n]]]]];
      cbn [job_sequence take app] in Hf |- *;
      repeat (apply elem_of_cons in Hf as [Hf|Hf]; [try discriminate Hf|]);
      try (apply elem_of_nil in Hf; destruct Hf);
      injection Hf as -> ->; (split; [reflexivity|]); (split; [reflexivity|]);
      repeat first [apply sublist_skip | apply sublist_cons | apply sublist_nil]. }
  destruct He as (-> & -> & He). split; [reflexivity|]. split; [exact Hne|].
  split; [apply trim_fixed_trimmed, Htr|].
  exists img. etrans; [exact He | exact Hs].
Qed.

Lemma search_follows_recognition_witness :
  reachable (world_after upload_to_json) ∧
  Fetch 1 BACKEND_SEARCH_ENDPOINT (lit "PARACETAMOL 500mg")
    ∈ calls (world_after upload_to_json) ∧
  trimmed (lit "PARACETAMOL 500mg") ∧
  ∃ img, [Recognize 1 img; Fetch 1 BACKEND_SEARCH_ENDPOINT (lit "PARACETAMOL 500mg")]
           `sublist_of` calls (world_after upload_to_json).
Proof.
  assert (Hr : reachable (world_after upload_to_json)).
  { exists upload_to_json. vm_compute. reflexivity. }
  assert (Hin : Fetch 1 BACKEND_SEARCH_ENDPOINT (lit "PARACETAMOL 500mg")
                  ∈ calls (world_after upload_to_json)).
  { apply list_elem_of_In. vm_compute. tauto. }
  split; [exact Hr|]. split; [exact Hin|].
  exact (proj2 (proj2 (search_follows_recognition _ _ _ _ Hr Hin))).
Defined.

(** ** Confidence and score *)

Lemma shl_align_value (m : positive) (e e' : Z) :
  ∃ m' e1, shl_align m e e' = (m', e1) ∧ e1 = Z.min e e' ∧
           Zpos m' = Zpos m * 2 ^ (e - e1).
Proof.
  unfold shl_align. destruct (e' - e) as [|d|d] eqn:E.
  - exists m, e. split; [reflexivity|]. split; [lia|].
    rewrite Z.sub_diag. lia.
  - exists m, e. split; [reflexivity|]. split; [lia|].
    rewrite Z.sub_diag. lia.
  - exists (shift_pos d m), e'. split; [reflexivity|]. split; [lia|].
    rewrite shift_pos_correct, Z.pow_pos_fold.
    replace (e - e') with (Zpos d) by lia. ring.
Qed.

Lemma nearest_0 : nearest 0 = 0.
Proof. vm_compute. reflexivity. Qed.

Lemma nearest_1 : nearest (2 ^ scale) = 2 ^ scale.
Proof. vm_compute. reflexivity. Qed.

(** [1 - s] for a score in [0,1] is the double nearest to the exact
    difference. *)
Lemma sub_from_one (s : number) :
  in_unit_interval s →
  ∃ m2 e2,
    num_sub (number_of_positive 1) s =
      match m2 with Zpos p => S754_finite false p e2 | _ => S754_zero false end ∧
    0 ≤ m2 ∧ emin prec emax ≤ e2 ∧
    m2 * 2 ^ (e2 + scale) = nearest (2 ^ scale - scaled s).
Proof.
  intros Hs. pose proof (scaled_unit s Hs) as Hunit.
  destruct Hs as (Hw & H0 & H1).
  change (number_of_positive 1) with (S754_finite false 4503599627370496 (-52)).
  destruct s as [b|b| |b m e]; try discriminate.
  - exists 4503599627370496, (-52). split; [reflexivity|]. split; [lia|].
    split; [vm_compute; discriminate|].
    change (scaled (S754_zero b)) with 0. rewrite Z.sub_0_r, nearest_1.
    vm_compute. reflexivity.
  - destruct b; discriminate.
  - destruct b; [discriminate|].
    pose proof (well_formed_finite _ _ _ Hw) as (He & Hl & _).
    assert (He' : e ≤ -52).
    { unfold num_leb, SFleb, SFcompare in H1.
      change num_1 with (S754_finite false 4503599627370496 (-52)) in H1.
      cbv iota beta in H1.
      destruct (Z.compare_spec e (-52)); try lia; discriminate. }
    cbn [scaled cond_Zopp] in Hunit |- *.
    unfold num_sub, SFsub. cbv zeta. rewrite (Z.min_r (-52) e) by lia.
    destruct (shl_align_value 4503599627370496 (-52) e) as (m1 & e1 & H1a & He1 & Hm1).
    rewrite Z.min_r in He1 by lia. subst e1. rewrite H1a.
    assert (Hme : shl_align m e e = (m, e))
      by (unfold shl_align; rewrite Z.sub_diag; reflexivity).
    rewrite Hme. cbn [fst cond_Zopp].
    assert (Ht : 0 < 2 ^ (e + scale)) by (apply Z.pow_pos_nonneg; unfold scale; lia).
    assert (Hpow : Zpos m1 * 2 ^ (e + scale) = 2 ^ scale).
    { rewrite Hm1. change 4503599627370496 with (2 ^ 52).
      rewrite <- !Z.pow_add_r by (unfold scale; lia). f_equal. unfold scale. lia. }
    assert (HM : (Zpos m1 - Zpos m) * 2 ^ (e + scale)
                 = 2 ^ scale - Zpos m * 2 ^ (e + scale)).
    { rewrite Z.mul_sub_distr_r, Hpow. reflexivity. }
    rewrite <- HM. remember (Zpos m1 - Zpos m) as D eqn:ED.
    assert (Hemin : emin prec emax = -1074) by reflexivity.
    destruct D as [|M|M].
    + exists 0, 0. cbn [binary_normalize]. split; [reflexivity|]. split; [lia|].
      split; [rewrite Hemin; lia|]. rewrite !Z.mul_0_l, nearest_0. reflexivity.
    + cbn [binary_normalize]. unfold binary_round.
      destruct (shl_align_value M e (fexp prec emax (Zpos (digits2_pos M) + e)))
        as (mz & ez & Hz & Hez & Hmz).
      rewrite Hz.
      assert (Hfe : emin prec emax ≤ fexp prec emax (Zpos (digits2_pos M) + e))
        by (unfold fexp; lia).
      assert (HlM : Z.log2 (Zpos M) + e ≤ 0).
      { pose proof (Z.log2_spec (Zpos M) ltac:(lia)) as [Hlo _].
        pose proof (Z.log2_nonneg (Zpos M)) as Hnn.
        assert (Hp : 2 ^ (Z.log2 (Zpos M) + (e + scale)) ≤ 2 ^ scale).
        { rewrite Z.pow_add_r by (unfold scale; lia). nia. }
        apply Z.pow_le_mono_r_iff in Hp; unfold scale in *; lia. }
      assert (Hlz : Z.log2 (Zpos mz) = Z.log2 (Zpos M) + (e - ez)).
      { rewrite Hmz, Z.log2_mul_pow2 by lia. lia. }
      destruct (binary_round_aux_value (Zpos mz) ez)
        as (m2 & e2 & Hr & Hm2 & He2 & Hv);
        [lia | unfold scale; lia | unfold emax, prec; lia | unfold emax; lia |].
      exists m2, e2. split; [exact Hr|]. split; [exact Hm2|]. split; [exact He2|].
      rewrite Hv. f_equal. rewrite Hmz, <- Z.mul_assoc, <- Z.pow_add_r by (unfold scale; lia).
      f_equal. f_equal. lia.
    + exfalso. nia.
Qed.

(** [Math.round(x * 100)] for a double [x] in [0,1] given by mantissa and
    exponent. *)
Lemma percent_of_unit_value (m2 e2 : Z) :
  0 ≤ m2 → emin prec emax ≤ e2 → m2 * 2 ^ (e2 + scale) ≤ 2 ^ scale →
  to_Z (Math_round
          (num_mul match m2 with Zpos p => S754_finite false p e2 | _ => S754_zero false end
                   (number_of_positive 100)))
  = Some (percent_at (m2 * 2 ^ (e2 + scale))).
Proof.
  intros Hm He Hv. rewrite number_of_positive_100.
  assert (Hemin : emin prec emax = -1074) by reflexivity. rewrite Hemin in He.
  destruct m2 as [|p|p]; [| |lia].
  - rewrite Z.mul_0_l, percent_at_0. reflexivity.
  - assert (Ht : 0 < 2 ^ (e2 + scale)) by (apply Z.pow_pos_nonneg; unfold scale; lia).
    pose proof (Z.log2_spec (Zpos p) ltac:(lia)) as [Hlo _].
    pose proof (Z.log2_nonneg (Zpos p)) as Hnn.
    assert (Hl : Z.log2 (Zpos p) + e2 ≤ 0).
    { assert (Hp : 2 ^ (Z.log2 (Zpos p) + (e2 + scale)) ≤ 2 ^ scale).
      { rewrite Z.pow_add_r by (unfold scale; lia). nia. }
      apply Z.pow_le_mono_r_iff in Hp; unfold scale in *; lia. }
    unfold num_mul, SFmul. cbn [xorb].
    set (M := Zpos (p * 7036874417766400)).
    assert (HM : M = Zpos p * (100 * 2 ^ 46)) by (unfold M; lia).
    assert (Hlog : Z.log2 M ≤ Z.log2 (Zpos p) + 53).
    { rewrite HM. pose proof (Z.log2_mul_above (Zpos p) (100 * 2 ^ 46)
                                ltac:(lia) ltac:(lia)) as Ha.
      change (Z.log2 (100 * 2 ^ 46)) with 52 in Ha. lia. }
    assert (C1 : 0 < M) by (unfold M; lia).
    assert (C2 : - scale ≤ e2 + -46) by (unfold scale; lia).
    assert (C3 : e2 + -46 ≤ emax - prec) by (unfold emax, prec; lia).
    assert (C4 : Z.log2 M + (e2 + -46) + 2 ≤ emax) by (unfold emax; lia).
    destruct (binary_round_aux_value M (e2 + -46) C1 C2 C3 C4)
      as (m3 & e3 & Hr & Hm3 & He3 & Hv3).
    rewrite Hr.
    assert (Hn : nearest (100 * (Zpos p * 2 ^ (e2 + scale))) = m3 * 2 ^ (e3 + scale)).
    { rewrite Hv3. f_equal. rewrite HM.
      replace (e2 + scale) with (46 + (e2 + -46 + scale)) by lia.
      rewrite (Z.pow_add_r 2 46) by (unfold scale; lia). ring. }
    unfold percent_at. rewrite Hn.
    destruct m3 as [|p3|p3]; [| |lia].
    + cbn [Math_round to_Z]. apply f_equal. symmetry. apply Z.div_small.
      split; [apply Z.pow_nonneg; lia|]. apply Z.pow_lt_mono_r; unfold scale; lia.
    + cbn [Math_round cond_Zopp]. rewrite andb_false_r. cbn [to_Z]. apply f_equal.
      apply round_half_up_scaled, He3.
Qed.

(** The confidence of a score in [0,1]: the integer nearest (ties up) to
    the double nearest to 100 times the double nearest to one minus the
    score. *)
Lemma confidence_of_score (s : number) :
  in_unit_interval s →
  percent_of_score s = IInt (percent_at (nearest (2 ^ scale - scaled s))) ∧
  0 ≤ percent_at (nearest (2 ^ scale - scaled s)) ≤ 100.
Proof.
  intros Hs. pose proof (scaled_unit s Hs) as Hunit.
  destruct (sub_from_one s Hs) as (m2 & e2 & Hsub & Hm2 & He2 & Hv).
  assert (Hle : nearest (2 ^ scale - scaled s) ≤ 2 ^ scale).
  { rewrite <- nearest_1 at 2. apply nearest_mono; lia. }
  assert (Hpow : 0 < 2 ^ (e2 + scale)).
  { apply Z.pow_pos_nonneg; [lia|]. change (emin prec emax) with (-1074) in He2.
    unfold scale. lia. }
  assert (H0 : 0 ≤ nearest (2 ^ scale - scaled s)) by (rewrite <- Hv; nia).
  pose proof (percent_at_bounds _ (conj H0 Hle)) as Hb.
  split; [|exact Hb].
  pose proof (percent_of_unit_value m2 e2 Hm2 He2 ltac:(rewrite Hv; exact Hle)) as Hp.
  rewrite <- Hsub, Hv in Hp. unfold percent_of_score.
  destruct (Math_round _) as [|b| |r]; try discriminate Hp.
  - injection Hp as Hp. rewrite <- Hp. reflexivity.
  - injection Hp as Hp. rewrite <- Hp in *.
    unfold Math_min, Math_max, integral_ltb.
    destruct (r <? 100) eqn:E1; [destruct (0 <? r) eqn:E2|];
      rewrite ?Z.ltb_lt, ?Z.ltb_ge in *; apply f_equal; lia.
Qed.

(** X14. A closer match never shows a lower confidence: for scores in [0,1],
    the displayed percentage does not go up when the score does, and it
    stays between 0 and 100. *)
Theorem closer_match_higher_confidence (s s' : number) :
  in_unit_interval s → in_unit_interval s' → num_leb s s' = true →
  ∃ p p', scoreToPercent (JNumber s) = decimal (Z.to_N p) ++ lit "%" ∧
          scoreToPercent (JNumber s') = decimal (Z.to_N p') ++ lit "%" ∧
          0 ≤ p' ≤ p ≤ 100.
Proof.
  intros Hs Hs' Hle.
  destruct (confidence_of_score s Hs) as [Hp Hb].
  destruct (confidence_of_score s' Hs') as [Hp' Hb'].
  pose proof (scaled_mono s s' Hs Hs' Hle) as Hm.
  pose proof (scaled_unit s' Hs') as Hu'.
  exists (percent_at (nearest (2 ^ scale - scaled s))),
         (percent_at (nearest (2 ^ scale - scaled s'))).
  unfold scoreToPercent. rewrite Hp, Hp', !NumberToString_percent by lia.
  split; [reflexivity|]. split; [reflexivity|].
  split; [lia|]. split; [|lia].
  apply percent_at_mono.
  - pose proof (nearest_mono 0 (2 ^ scale - scaled s') ltac:(lia) ltac:(lia)) as H0.
    rewrite nearest_0 in H0. exact H0.
  - apply nearest_mono; lia.
Qed.

Lemma closer_match_higher_confidence_witness :
  in_unit_interval num_0_1 ∧ in_unit_interval num_0_5 ∧
  num_leb num_0_1 num_0_5 = true ∧
  ∃ p p', scoreToPercent (JNumber num_0_1) = decimal (Z.to_N p) ++ lit "%" ∧
          scoreToPercent (JNumber num_0_5) = decimal (Z.to_N p') ++ lit "%" ∧
          0 ≤ p' ≤ p ≤ 100.
Proof.
  assert (H1 : in_unit_interval num_0_1) by (repeat split).
  assert (H5 : in_unit_interval num_0_5) by (repeat split).
  assert (Hle : num_leb num_0_1 num_0_5 = true) by reflexivity.
  split; [exact H1|]. split; [exact H5|]. split; [exact Hle|].
  exact (closer_match_higher_confidence num_0_1 num_0_5 H1 H5 Hle).
Defined.
